(** * Lyra2 (CUDA): the LYRA2 host driver of [src/cuda/Lyra2.cu]

    A shallow embedding of the host function [LYRA2]: the staging of
    [pwd || salt || basil] with its 10*1 padding, the acquisition and release
    of the five buffers, the CUDA error checks and the order in which the
    sponge kernels are launched. *)

From Stdlib Require Import ZArith List Bool Lia.
Import ListNotations.
Local Open Scope Z_scope.

(** ** Machine integers

    [int] is a 32-bit two's complement integer and [size_t] a 64-bit unsigned
    one, as on every host the CUDA toolchain targets. *)

Definition wrap_int (z : Z) : Z := (z + 2 ^ 31) mod 2 ^ 32 - 2 ^ 31.
Definition wrap_size_t (z : Z) : Z := z mod 2 ^ 64.
Definition INT_MAX : Z := 2 ^ 31 - 1.
Definition sizeof_int : Z := 4.
Definition sizeof_uint64_t : Z := 8.

(** ** Bytes and flat memory

    A byte is a [Z] in [0, 256).  A [mem] gives the byte found at each offset
    from a base pointer; the allocation made at the base covers only a prefix
    of it, and a store past that prefix lands in whatever follows the
    allocation, as it does for the C code. *)

Definition byte : Type := Z.
Definition mem : Type := Z -> byte.

Definition store (m : mem) (a : Z) (b : byte) : mem :=
  fun x => if x =? a then b else m x.

Fixpoint write_bytes (m : mem) (a : Z) (l : list byte) : mem :=
  match l with
  | [] => m
  | b :: l' => write_bytes (store m a b) (a + 1) l'
  end.

(** [memcpy(base + dst, src, n)]: [n] is converted to [size_t].  [src] is the
    content of the source buffer, so the copy stops at its end: this is what
    the C call does only when [n] does not exceed the buffer, which
    [well_formed] below asks of the caller's password and salt. *)
Definition memcpy (m : mem) (dst : Z) (src : list byte) (n : Z) : mem :=
  write_bytes m dst (firstn (Z.to_nat (wrap_size_t n)) src).

(** [memset(base + dst, c, n)]. *)
Definition memset (m : mem) (dst : Z) (c : byte) (n : Z) : mem :=
  fun x => if (dst <=? x) && (x <? dst + n) then c else m x.

Fixpoint load_bytes (m : mem) (a : Z) (n : nat) : list byte :=
  match n with
  | O => []
  | S n' => m a :: load_bytes m (a + 1) n'
  end.

(** The object representation of an [int]: four bytes, least significant
    first. *)
Definition int_bytes (v : Z) : list byte :=
  map (fun k => (v / 2 ^ (8 * k)) mod 256) [0; 1; 2; 3].

(** ** Buffers, calls and the instrumented run

    The five buffers [LYRA2] owns, named as its pointer variables are. *)

Inductive resource : Type :=
| MemMatrixDev | stateHost | stateDev | rowADev | MemMatrixHost.

(** Every call [LYRA2] makes to the allocators, the CUDA runtime and the
    sponge engine ([Sponge.h]), with the arguments that matter here.  Offsets
    into the device matrix are counted in 64-bit words. *)
Inductive call : Type :=
| CudaMalloc (r : resource) (size : Z)
| CudaMemset (r : resource) (size : Z)
| Malloc (r : resource) (size : Z)
| Memset (r : resource) (size : Z)
| CudaMemcpyHostToDevice (data : list byte)
| CudaMemcpyDeviceToHost
| InitState
| AbsorbBlock (word : Z)
| ReducedSqueezeRow (word : Z)
| SetupGPU (rows : Z)
| Wandering (time rows : Z)
| Squeeze (len : Z)
| CudaFree (r : resource)
| Free (r : resource).

(** A call together with whether it succeeded. *)
Definition event : Type := (call * bool)%type.

(** The places of [Lyra2.cu] where a call can fail, by line number; the
    launch of line 261 is in the absorb loop and carries the loop index, and
    a [cudaFree] is named by the line it stands on (350, 362 and 363 on the
    way to [return 0], the others in the error branches). *)
Inductive site : Type :=
| L93 | L103 | L114 | L127 | L140 | L154 | L168 | L187 | L235 | L252
| L261 (i : Z) | L279 | L281 | L283 | L298 | L313 | L330 | L346 | L352
| LcudaFree (line : Z).

(** What the surroundings decide: which calls fail, and the row index the
    wandering kernel leaves in [rowADev]. *)
Record env : Type := mkEnv { fails : site -> bool; rowa : Z }.

(** The state threaded through a run: the CUDA runtime's last error (set by a
    failing runtime call or launch, read and cleared by [cudaGetLastError]),
    the memory at [MemMatrixHost], and the calls made so far, latest first. *)
Record world : Type := mkWorld {
  lastError : bool;
  hostRow : mem;
  trace : list event
}.

(** A computation either goes on with a value or leaves the function with a
    status ([return]). *)
Inductive outcome (A : Type) : Type :=
| Next (a : A)
| Returned (status : Z).
Arguments Next {A} a.
Arguments Returned {A} status.

Definition M (A : Type) : Type := world -> outcome A * world.

Definition ret {A} (a : A) : M A := fun w => (Next a, w).
Definition exit {A} (status : Z) : M A := fun w => (Returned status, w).
Definition bind {A B} (c : M A) (k : A -> M B) : M B :=
  fun w => match c w with
           | (Next a, w') => k a w'
           | (Returned s, w') => (Returned s, w')
           end.

Declare Scope lyra_scope.
Delimit Scope lyra_scope with lyra.
Notation "x <- c ;; k" := (bind c (fun x => k))
  (at level 61, c at next level, right associativity) : lyra_scope.
Notation "c ;; k" := (bind c (fun _ => k))
  (at level 61, right associativity) : lyra_scope.

Definition log (c : call) (ok : bool) : M unit :=
  fun w => (Next tt, mkWorld (lastError w) (hostRow w) ((c, ok) :: trace w)).

Definition cudaGetLastError : M bool :=
  fun w => (Next (lastError w), mkWorld false (hostRow w) (trace w)).

(** [free] does not fail and leaves the pending error as it is. *)
Definition free (r : resource) : M unit := log (Free r) true.

(** The error branches print [cudaGetErrorString(cudaGetLastError())]. *)
Definition printf_error : M unit := (_ <- cudaGetLastError ;; ret tt)%lyra.

Definition host_write (f : mem -> mem) : M unit :=
  fun w => (Next tt, mkWorld (lastError w) (f (hostRow w)) (trace w)).

Definition host_row : M mem := fun w => (Next (hostRow w), w).

(** [memset(MemMatrixHost, 0, size)]. *)
Definition memset_host (size : Z) : M unit :=
  (host_write (fun m => memset m 0 0 size) ;;
   log (Memset MemMatrixHost size) true)%lyra.

Section Run.

Variable e : env.

(** A CUDA runtime call, a kernel launch or a host function of the engine at
    site [s]: when it fails, its error becomes the runtime's last error and
    stays so until [cudaGetLastError] reads it. *)
Definition cuda (s : site) (c : call) : M unit :=
  fun w => (Next tt,
            mkWorld (lastError w || fails e s) (hostRow w)
                    ((c, negb (fails e s)) :: trace w)).

(** [cudaFree] is a call of the CUDA runtime like the others: when the one of
    line [line] fails, its error is the runtime's last error for whichever
    [cudaGetLastError] comes next, if any does. *)
Definition cudaFree (line : Z) (r : resource) : M unit :=
  cuda (LcudaFree line) (CudaFree r).

(** [malloc] at site [s]; the value tells whether the pointer is not [NULL]. *)
Definition malloc (s : site) (r : resource) (size : Z) : M bool :=
  fun w => (Next (negb (fails e s)),
            mkWorld (lastError w) (hostRow w)
                    ((Malloc r size, negb (fails e s)) :: trace w)).

End Run.

(** A call starts with no pending CUDA error and an empty record of calls;
    [m] is the memory that [MemMatrixHost] will point to. *)
Definition start (m : mem) : world := mkWorld false m [].

(** The calls of a run in the order they were made. *)
Definition events (w : world) : list event := rev (trace w).

(** ** What is read off a record of calls *)

Definition resource_eq_dec (a b : resource) : {a = b} + {a <> b}.
Proof. decide equality. Defined.

(** An acquisition is a [cudaMalloc] or [malloc] that succeeded. *)
Definition acquisition (ev : event) : list resource :=
  match ev with
  | (CudaMalloc r _, true) => [r]
  | (Malloc r _, true) => [r]
  | _ => []
  end.

(** A release is a call of [cudaFree] or [free] on the buffer's pointer. *)
Definition release (ev : event) : list resource :=
  match fst ev with
  | CudaFree r => [r]
  | Free r => [r]
  | _ => []
  end.

Definition is_engine (c : call) : bool :=
  match c with
  | InitState | AbsorbBlock _ | ReducedSqueezeRow _
  | SetupGPU _ | Wandering _ _ | Squeeze _ => true
  | _ => false
  end.

(** The invocations of the sponge engine. *)
Definition engine (ev : event) : list event :=
  if is_engine (fst ev) then [ev] else [].

(** [squeeze] is the only call that is handed the caller's buffer [K]. *)
Definition output_write (ev : event) : list event :=
  match fst ev with
  | Squeeze _ => [ev]
  | _ => []
  end.

Definition acquisitions (t : list event) : list resource := flat_map acquisition t.
Definition releases (t : list event) : list resource := flat_map release t.
Definition engine_calls (t : list event) : list event := flat_map engine t.
Definition output_writes (t : list event) : list event := flat_map output_write t.

Definition release_count (r : resource) (t : list event) : nat :=
  count_occ resource_eq_dec (releases t) r.

Definition succeeded (c : call) : event := (c, true).

(** Whether [stateDev] is handed to [cudaFree] while it holds what the engine
    wrote: [dirty] tells whether a successful engine call came after the last
    successful [cudaMemset] of [stateDev]. *)
Fixpoint released_dirty (dirty : bool) (t : list event) : bool :=
  match t with
  | [] => false
  | (c, ok) :: t' =>
      match c with
      | CudaMemset stateDev _ => released_dirty (if ok then false else dirty) t'
      | CudaFree stateDev => dirty || released_dirty dirty t'
      | _ => released_dirty (if is_engine c && ok then true else dirty) t'
      end
  end.

Definition sponge_released_dirty (t : list event) : bool := released_dirty false t.

(** The buffers a call reads or writes, as its arguments in [Lyra2.cu] name
    them; the allocators and the releases use none. *)
Definition uses (c : call) : list resource :=
  match c with
  | CudaMalloc _ _ | Malloc _ _ | CudaFree _ | Free _ => []
  | CudaMemset r _ | Memset r _ => [r]
  | CudaMemcpyHostToDevice _ => [MemMatrixDev; MemMatrixHost]
  | CudaMemcpyDeviceToHost => [rowADev]
  | InitState => [stateDev]
  | AbsorbBlock _ | ReducedSqueezeRow _ | SetupGPU _ => [stateDev; MemMatrixDev]
  | Wandering _ _ => [stateDev; MemMatrixDev; rowADev]
  | Squeeze _ => [stateDev]
  end.

Definition inb (r : resource) (l : list resource) : bool :=
  if in_dec resource_eq_dec r l then true else false.

(** Whether every call of [t] uses only buffers acquired before it and not
    released before it; [acq] and [rel] are the buffers acquired and released
    before [t]. *)
Fixpoint uses_live (acq rel : list resource) (t : list event) : bool :=
  match t with
  | [] => true
  | ev :: t' =>
      forallb (fun r => inb r acq && negb (inb r rel)) (uses (fst ev)) &&
      uses_live (acquisition ev ++ acq) (release ev ++ rel) t'
  end.

(** The buffers acquired, or released, once the calls of [l] are made. *)
Definition acquired_after (l : list event) (acq : list resource) : list resource :=
  fold_left (fun a ev => acquisition ev ++ a) l acq.
Definition released_after (l : list event) (rel : list resource) : list resource :=
  fold_left (fun a ev => release ev ++ a) l rel.

(** The 10*1 padding of line 183 on whole bytes: [M], the byte 0x80, zeros,
    and a final 0x01 that closes the block; when only one byte is left in
    the block, both marks share it as 0x81. *)
Definition pad10star1 (block : Z) (M : list byte) : list byte :=
  let x := Z.of_nat (length M) in
  let last := (x / block + 1) * block - 1 in
  if x =? last then M ++ [129]
  else M ++ 128 :: repeat 0 (Z.to_nat (last - x - 1)) ++ [1].

(** ** The reference constants

    Modelled from the spec: the values of the constants of [Lyra2.h] and
    [Sponge.h], which are not among the sources.  [Lyra2.cu] documents a
    sponge block of 8 words (line 113) and 64 columns (line 27); the row
    width in bytes is nCols x wordSize x wordsPerBlock. *)
Definition ref_BLOCK_LEN_INT64 : Z := 8.
Definition ref_BLOCK_LEN_BYTES : Z := 64.
Definition ref_ROW_LEN_INT64 : Z := 512.
Definition ref_ROW_LEN_BYTES : Z := 4096.
Definition ref_N_COLS : Z := 64.

Definition no_fault : env := mkEnv (fun _ => false) 0.

(** "password" and "salt". *)
Definition sample_pwd : list byte := [112; 97; 115; 115; 119; 111; 114; 100].
Definition sample_salt : list byte := [115; 97; 108; 116].

(** A single fault, at site [s]. *)
Definition site_eqb (a b : site) : bool :=
  match a, b with
  | L93, L93 | L103, L103 | L114, L114 | L127, L127 | L140, L140
  | L154, L154 | L168, L168 | L187, L187 | L235, L235 | L252, L252
  | L279, L279 | L281, L281 | L283, L283 | L298, L298 | L313, L313
  | L330, L330 | L346, L346 | L352, L352 => true
  | L261 i, L261 j => i =? j
  | LcudaFree a, LcudaFree b => a =? b
  | _, _ => false
  end.

Definition fault_at (s : site) : env := mkEnv (site_eqb s) 0.

(** ** Basic facts about integers, memory and records of calls *)

Lemma wrap_int_small z : - 2 ^ 31 <= z <= INT_MAX -> wrap_int z = z.
Proof.
  unfold wrap_int, INT_MAX. intros H.
  rewrite Z.mod_small by lia. lia.
Qed.

Lemma wrap_size_t_small z : 0 <= z < 2 ^ 64 -> wrap_size_t z = z.
Proof. unfold wrap_size_t. intros H. now apply Z.mod_small. Qed.

Lemma int_bytes_length v : length (int_bytes v) = 4%nat.
Proof. reflexivity. Qed.

(** The four bytes are the base-256 digits of the [int]'s 32 bits. *)
Lemma int_bytes_value v :
  Forall (fun b => 0 <= b < 256) (int_bytes v) /\
  fold_right (fun b acc => b + 256 * acc) 0 (int_bytes v) = v mod 2 ^ 32.
Proof.
  split.
  - unfold int_bytes. apply Forall_map, Forall_forall. intros k _.
    apply Z.mod_pos_bound. lia.
  - unfold int_bytes. cbn [map fold_right].
    change (2 ^ (8 * 0)) with 1. change (2 ^ (8 * 1)) with 256.
    change (2 ^ (8 * 2)) with (256 * 256).
    change (2 ^ (8 * 3)) with (256 * 256 * 256).
    change (2 ^ 32) with (256 * 256 * 256 * 256).
    rewrite Z.div_1_r, <- !Z.div_div by lia.
    pose proof (Z.div_mod v 256 ltac:(lia)).
    pose proof (Z.mod_pos_bound v 256 ltac:(lia)).
    remember (v / 256) as q1 eqn:E1. clear E1.
    pose proof (Z.div_mod q1 256 ltac:(lia)).
    pose proof (Z.mod_pos_bound q1 256 ltac:(lia)).
    remember (q1 / 256) as q2 eqn:E2. clear E2.
    pose proof (Z.div_mod q2 256 ltac:(lia)).
    pose proof (Z.mod_pos_bound q2 256 ltac:(lia)).
    remember (q2 / 256) as q3 eqn:E3. clear E3.
    pose proof (Z.div_mod q3 256 ltac:(lia)).
    pose proof (Z.mod_pos_bound q3 256 ltac:(lia)).
    apply (Z.mod_unique_pos _ _ (q3 / 256)); lia.
Qed.

Lemma store_eq m a b : store m a b a = b.
Proof. unfold store. now rewrite Z.eqb_refl. Qed.

Lemma store_neq m a b x : x <> a -> store m a b x = m x.
Proof. unfold store. intros H. apply Z.eqb_neq in H. now rewrite H. Qed.

Lemma write_bytes_below l : forall m a x, x < a -> write_bytes m a l x = m x.
Proof.
  induction l as [|b l IH]; intros m a x Hx; simpl; [reflexivity|].
  rewrite IH by lia. apply store_neq. lia.
Qed.

Lemma write_bytes_above l :
  forall m a x, a + Z.of_nat (length l) <= x -> write_bytes m a l x = m x.
Proof.
  induction l as [|b l IH]; intros m a x Hx; simpl in *; [reflexivity|].
  rewrite IH by lia. apply store_neq. lia.
Qed.

Lemma write_bytes_outside l m a x :
  x < a \/ a + Z.of_nat (length l) <= x -> write_bytes m a l x = m x.
Proof. intros [H|H]; [now apply write_bytes_below | now apply write_bytes_above]. Qed.

Lemma load_bytes_ext n : forall m m' a,
  (forall x, a <= x < a + Z.of_nat n -> m x = m' x) ->
  load_bytes m a n = load_bytes m' a n.
Proof.
  induction n as [|n IH]; intros m m' a H; simpl; [reflexivity|].
  f_equal; [apply H; lia | apply IH; intros x Hx; apply H; lia].
Qed.

Lemma load_write_bytes l : forall m a, load_bytes (write_bytes m a l) a (length l) = l.
Proof.
  induction l as [|b l IH]; intros m a; simpl; [reflexivity|].
  f_equal; [|apply IH].
  rewrite write_bytes_below by lia. apply store_eq.
Qed.

Lemma load_bytes_app n1 : forall m a n2,
  load_bytes m a (n1 + n2) = load_bytes m a n1 ++ load_bytes m (a + Z.of_nat n1) n2.
Proof.
  induction n1 as [|n1 IH]; intros m a n2.
  - simpl. now rewrite Z.add_0_r.
  - cbn [Nat.add load_bytes app]. rewrite IH. do 3 f_equal. lia.
Qed.

Lemma load_bytes_length n : forall m a, length (load_bytes m a n) = n.
Proof. induction n; intros; simpl; auto. Qed.

Lemma flat_map_rev_small {A B} (f : A -> list B) (l : list A) :
  (forall x, (length (f x) <= 1)%nat) ->
  flat_map f (rev l) = rev (flat_map f l).
Proof.
  intros Hf. induction l as [|a l IH]; [reflexivity|].
  cbn [rev flat_map]. rewrite flat_map_app, IH, rev_app_distr.
  cbn [flat_map]. rewrite app_nil_r. f_equal.
  specialize (Hf a). destruct (f a) as [|b [|c l']]; try reflexivity.
  cbn in Hf. lia.
Qed.

Lemma acquisition_small ev : (length (acquisition ev) <= 1)%nat.
Proof. destruct ev as [[] []]; cbn; lia. Qed.

Lemma release_small ev : (length (release ev) <= 1)%nat.
Proof. destruct ev as [[] ?]; cbn; lia. Qed.

Lemma engine_small ev : (length (engine ev) <= 1)%nat.
Proof. unfold engine. destruct (is_engine (fst ev)); cbn; lia. Qed.

Lemma output_write_small ev : (length (output_write ev) <= 1)%nat.
Proof. destruct ev as [[] ?]; cbn; lia. Qed.

Lemma acquisitions_rev t : acquisitions (rev t) = rev (acquisitions t).
Proof. apply flat_map_rev_small, acquisition_small. Qed.

Lemma releases_rev t : releases (rev t) = rev (releases t).
Proof. apply flat_map_rev_small, release_small. Qed.

Lemma engine_calls_rev t : engine_calls (rev t) = rev (engine_calls t).
Proof. apply flat_map_rev_small, engine_small. Qed.

Lemma output_writes_rev t : output_writes (rev t) = rev (output_writes t).
Proof. apply flat_map_rev_small, output_write_small. Qed.

Lemma release_count_rev r t : release_count r (rev t) = release_count r t.
Proof.
  unfold release_count. rewrite releases_rev.
  induction (releases t) as [|a l IH]; [reflexivity|].
  cbn [rev]. rewrite count_occ_app, IH. cbn [count_occ].
  destruct (resource_eq_dec a r); lia.
Qed.

Lemma bind_Next {A B} (c : M A) (k : A -> M B) w a w' :
  c w = (Next a, w') -> bind c k w = k a w'.
Proof. unfold bind. now intros ->. Qed.

Lemma bind_Returned {A B} (c : M A) (k : A -> M B) w s w' :
  c w = (Returned s, w') -> bind c k w = (Returned s, w').
Proof. unfold bind. now intros ->. Qed.

(** ** The constants of [Lyra2.h] and [Sponge.h]

    The headers are not among the sources: their constants are parameters
    of everything below, and the [ref_*] values above instantiate them. *)

Section Lyra2.

Variable e : env.

Variable BLOCK_LEN_INT64 : Z.   (* 64-bit words in a sponge block *)
Variable BLOCK_LEN_BYTES : Z.   (* bytes in a sponge block *)
Variable ROW_LEN_INT64 : Z.     (* 64-bit words in a matrix row *)
Variable ROW_LEN_BYTES : Z.     (* bytes in a matrix row *)

(** ** The arguments of one call of [LYRA2] *)

Variable kLen : Z.
Variable pwd : list byte.
Variable pwdlen : Z.
Variable salt : list byte.
Variable saltlen : Z.
Variable timeCost : Z.
Variable nRows : Z.
Variable nCols : Z.

(** Line 85: [pwdlen + saltlen > ROW_LEN_BYTES], an [int] comparison. *)
Definition too_long : bool := wrap_int (pwdlen + saltlen) >? ROW_LEN_BYTES.

(** Line 203:
    [int nBlocksInput = ((saltlen + pwdlen + 6*sizeof(int)) / BLOCK_LEN_BYTES) + 1;]
    the [int] sum is converted to [size_t] by the addition of [6*sizeof(int)],
    the quotient is a [size_t] and the result is converted back to [int]. *)
Definition nBlocksInput : Z :=
  wrap_int
    (wrap_size_t
       (wrap_size_t (wrap_size_t (wrap_int (saltlen + pwdlen)) + 6 * sizeof_int)
          / wrap_size_t BLOCK_LEN_BYTES + 1)).

(** The basil, [kLen || pwdlen || saltlen || timeCost || nRows || nCols]. *)
Definition basil : list byte :=
  int_bytes kLen ++ int_bytes pwdlen ++ int_bytes saltlen ++
  int_bytes timeCost ++ int_bytes nRows ++ int_bytes nCols.

(** Lines 206-226: [ptrMem] walks over the staging row, here as an offset from
    [MemMatrixHost]; the result is the memory and the final [ptrMem]. *)
Definition concat_input (m : mem) : mem * Z :=
  let ptrMem := 0 in
  let m := memcpy m ptrMem pwd pwdlen in
  let ptrMem := ptrMem + pwdlen in
  let m := memcpy m ptrMem salt saltlen in
  let ptrMem := ptrMem + saltlen in
  let m := memcpy m ptrMem (int_bytes kLen) sizeof_int in
  let ptrMem := ptrMem + sizeof_int in
  let m := memcpy m ptrMem (int_bytes pwdlen) sizeof_int in
  let ptrMem := ptrMem + sizeof_int in
  let m := memcpy m ptrMem (int_bytes saltlen) sizeof_int in
  let ptrMem := ptrMem + sizeof_int in
  let m := memcpy m ptrMem (int_bytes timeCost) sizeof_int in
  let ptrMem := ptrMem + sizeof_int in
  let m := memcpy m ptrMem (int_bytes nRows) sizeof_int in
  let ptrMem := ptrMem + sizeof_int in
  let m := memcpy m ptrMem (int_bytes nCols) sizeof_int in
  let ptrMem := ptrMem + sizeof_int in
  (m, ptrMem).

(** Line 231: the offset of the last byte of the last reserved block. *)
Definition last_pad_offset : Z := wrap_int (nBlocksInput * BLOCK_LEN_BYTES - 1).

(** Lines 229-232: the two padding edits. *)
Definition pad_input (mp : mem * Z) : mem :=
  let (m, ptrMem) := mp in
  let m := store m ptrMem 128 in
  let ptrMem := last_pad_offset in
  store m ptrMem (Z.lxor (m ptrMem) 1).

(** Lines 200-232: the staging row after [memset], concatenation and padding. *)
Definition staged_input (m : mem) : mem :=
  pad_input (concat_input (memset m 0 0 ROW_LEN_BYTES)).

Local Open Scope lyra_scope.

(** Lines 260-275: the absorb loop, [n] iterations from index [i] on, with
    [ptrWord] as a word offset into [MemMatrixDev]. *)
Fixpoint absorb_loop (n : nat) (i : Z) (ptrWord : Z) : M unit :=
  match n with
  | O => ret tt
  | S n' =>
      cuda e (L261 i) (AbsorbBlock ptrWord) ;;
      err <- cudaGetLastError ;;
      if err then
        printf_error ;;
        free stateHost ;; cudaFree e 266 stateDev ;; cudaFree e 267 MemMatrixDev ;;
        cudaFree e 270 rowADev ;;
        exit (-1)
      else
        absorb_loop n' (i + 1) (wrap_int ((i + 1) * BLOCK_LEN_INT64))
  end.

Definition LYRA2_body : M Z :=
  (* 85 *)
  if too_long then exit (-1) else
  (* 93 *)
  cuda e L93 (CudaMalloc MemMatrixDev (wrap_size_t (wrap_int (nRows * ROW_LEN_BYTES)))) ;;
  err <- cudaGetLastError ;;
  if err then
    printf_error ;; cudaFree e 97 MemMatrixDev ;; exit (-1)
  else
  (* 103 *)
  cuda e L103 (CudaMemset MemMatrixDev (wrap_size_t (wrap_int (nRows * ROW_LEN_BYTES)))) ;;
  err <- cudaGetLastError ;;
  if err then
    printf_error ;; cudaFree e 107 MemMatrixDev ;; exit (-1)
  else
  (* 114 *)
  p <- malloc e L114 stateHost (16 * sizeof_uint64_t) ;;
  if negb p then
    cudaFree e 117 MemMatrixDev ;; free stateHost ;; exit (-1)
  else
  log (Memset stateHost (16 * sizeof_uint64_t)) true ;;
  (* 127 *)
  cuda e L127 (CudaMalloc stateDev (16 * sizeof_uint64_t)) ;;
  err <- cudaGetLastError ;;
  if err then
    printf_error ;;
    cudaFree e 131 MemMatrixDev ;; free stateHost ;; cudaFree e 134 stateDev ;;
    exit (-1)
  else
  (* 140 *)
  cuda e L140 (CudaMemset stateDev (16 * sizeof_uint64_t)) ;;
  err <- cudaGetLastError ;;
  if err then
    printf_error ;;
    free stateHost ;; cudaFree e 145 stateDev ;; cudaFree e 146 MemMatrixDev ;;
    exit (-1)
  else
  (* 154 *)
  cuda e L154 (CudaMalloc rowADev sizeof_int) ;;
  err <- cudaGetLastError ;;
  if err then
    printf_error ;;
    free stateHost ;; cudaFree e 159 stateDev ;; cudaFree e 160 MemMatrixDev ;;
    cudaFree e 163 rowADev ;; exit (-1)
  else
  (* 168 *)
  cuda e L168 (CudaMemset rowADev sizeof_int) ;;
  err <- cudaGetLastError ;;
  if err then
    printf_error ;;
    free stateHost ;; cudaFree e 173 stateDev ;; cudaFree e 174 MemMatrixDev ;;
    cudaFree e 177 rowADev ;; exit (-1)
  else
  (* 187 *)
  p <- malloc e L187 MemMatrixHost ROW_LEN_BYTES ;;
  if negb p then
    free stateHost ;; cudaFree e 191 stateDev ;; cudaFree e 192 MemMatrixDev ;;
    cudaFree e 195 rowADev ;; free MemMatrixHost ;; exit (-1)
  else
  (* 200 *)
  memset_host ROW_LEN_BYTES ;;
  (* 203-232 *)
  host_write (fun m => pad_input (concat_input m)) ;;
  (* 235 *)
  m <- host_row ;;
  cuda e L235 (CudaMemcpyHostToDevice (load_bytes m 0 (Z.to_nat ROW_LEN_BYTES))) ;;
  err <- cudaGetLastError ;;
  if err then
    free stateHost ;; cudaFree e 239 stateDev ;; cudaFree e 240 MemMatrixDev ;;
    cudaFree e 243 rowADev ;; exit (-1)
  else
  (* 248 *)
  memset_host ROW_LEN_BYTES ;;
  (* 252 *)
  cuda e L252 InitState ;;
  (* 259-275 *)
  absorb_loop (Z.to_nat nBlocksInput) 0 0 ;;
  (* 279-283 *)
  cuda e L279 (ReducedSqueezeRow 0) ;;
  cuda e L281 (ReducedSqueezeRow ROW_LEN_INT64) ;;
  cuda e L283 (SetupGPU nRows) ;;
  err <- cudaGetLastError ;;
  if err then
    printf_error ;;
    free stateHost ;; cudaFree e 288 stateDev ;; cudaFree e 289 MemMatrixDev ;;
    cudaFree e 292 rowADev ;; exit (-1)
  else
  (* 298 *)
  cuda e L298 (Wandering timeCost nRows) ;;
  err <- cudaGetLastError ;;
  if err then
    printf_error ;;
    free stateHost ;; cudaFree e 303 stateDev ;; cudaFree e 304 MemMatrixDev ;;
    cudaFree e 307 rowADev ;; exit (-1)
  else
  (* 313 *)
  cuda e L313 CudaMemcpyDeviceToHost ;;
  err <- cudaGetLastError ;;
  if err then
    printf_error ;;
    free stateHost ;; cudaFree e 318 stateDev ;; cudaFree e 319 MemMatrixDev ;;
    cudaFree e 322 rowADev ;; exit (-1)
  else
  let rowaCPU := rowa e in
  (* 330 *)
  cuda e L330 (AbsorbBlock (wrap_int (rowaCPU * ROW_LEN_INT64))) ;;
  err <- cudaGetLastError ;;
  if err then
    printf_error ;;
    free stateHost ;; cudaFree e 335 stateDev ;; cudaFree e 336 MemMatrixDev ;;
    cudaFree e 339 rowADev ;; exit (-1)
  else
  (* 346 *)
  cuda e L346 (Squeeze kLen) ;;
  (* 350 *)
  cudaFree e 350 MemMatrixDev ;;
  cuda e L352 (CudaMemset stateDev (16 * sizeof_uint64_t)) ;;
  err <- cudaGetLastError ;;
  if err then
    printf_error ;;
    free stateHost ;; free MemMatrixHost ;; cudaFree e 358 stateDev ;;
    cudaFree e 359 rowADev ;; exit (-1)
  else
  (* 362 *)
  cudaFree e 362 stateDev ;; cudaFree e 363 rowADev ;; free stateHost ;;
  free MemMatrixHost ;;
  ret 0.

(** [LYRA2] run from the world [w]: the status returned and the final world. *)
Definition LYRA2 (w : world) : Z * world :=
  match LYRA2_body w with
  | (Next status, w') => (status, w')
  | (Returned status, w') => (status, w')
  end.

(** The header constants are usable: a positive block length, and a row
    small enough for the [int] arithmetic of lines 203 and 231. *)
Definition consts_ok : Prop :=
  0 < BLOCK_LEN_BYTES /\ 0 <= ROW_LEN_BYTES /\
  ROW_LEN_BYTES + 6 * sizeof_int + BLOCK_LEN_BYTES <= INT_MAX.

(** [pwd] and [salt] point to buffers of the stated lengths, and the sum of
    line 85 does not overflow. *)
Definition well_formed : Prop :=
  Z.of_nat (length pwd) = pwdlen /\ Z.of_nat (length salt) = saltlen /\
  pwdlen + saltlen <= INT_MAX.

(** The word offsets the absorb loop launches [absorbBlock] on. *)
Fixpoint loop_words (n : nat) (i ptrWord : Z) : list Z :=
  match n with
  | O => []
  | S n' => ptrWord :: loop_words n' (i + 1) (wrap_int ((i + 1) * BLOCK_LEN_INT64))
  end.

(** Successful absorbs of the blocks at [ws], latest first. *)
Definition absorbed (ws : list Z) : list event :=
  rev (map (fun p => (AbsorbBlock p, true)) ws).

(** The releases of the error branch of the loop, latest first, and the
    error they leave pending. *)
Definition loop_unwind : list event :=
  [(CudaFree rowADev, negb (fails e (LcudaFree 270)));
   (CudaFree MemMatrixDev, negb (fails e (LcudaFree 267)));
   (CudaFree stateDev, negb (fails e (LcudaFree 266)));
   (Free stateHost, true)].

Definition loop_unwind_error : bool :=
  fails e (LcudaFree 266) || fails e (LcudaFree 267) || fails e (LcudaFree 270).

Definition is_absorb (ev : event) : Prop :=
  exists p b, ev = (AbsorbBlock p, b).

(** The blocks the loop absorbs: block [j] starts at word [j * BLOCK_LEN_INT64]. *)
Definition block_words : list Z :=
  map (fun j => wrap_int (Z.of_nat j * BLOCK_LEN_INT64)) (seq 0 (Z.to_nat nBlocksInput)).

(** The calls made once [squeeze] has been reached and the check of line 353
    fails: [s], [f] and [z] tell whether [squeeze], the [cudaFree] of the
    matrix and the final wipe succeeded, [a] and [b] whether the two
    [cudaFree] of the error branch did. *)
Definition late_failure (s f z a b : bool) : list event :=
  [(Squeeze kLen, s); (CudaFree MemMatrixDev, f);
   (CudaMemset stateDev (16 * sizeof_uint64_t), z);
   (Free stateHost, true); (Free MemMatrixHost, true);
   (CudaFree stateDev, a); (CudaFree rowADev, b)].

(** An absorb of one of the blocks at [ws]. *)
Definition absorb_of (ws : list Z) (ev : event) : Prop :=
  exists p b, ev = (AbsorbBlock p, b) /\ In p ws.

(** The input has room in the row: the row is a whole number of blocks and
    one byte at least stays free behind the basil. *)
Definition has_room : Prop :=
  ROW_LEN_BYTES mod BLOCK_LEN_BYTES = 0 /\
  pwdlen + saltlen + 6 * sizeof_int < ROW_LEN_BYTES.

(** The twelve calls that precede [initState], all successful: the matrix,
    the two sponge states and the row index are allocated and cleared, the
    staging row is allocated, cleared, filled, copied and wiped. *)
Definition prologue (m : mem) : list event :=
  map succeeded
    [CudaMalloc MemMatrixDev (wrap_size_t (wrap_int (nRows * ROW_LEN_BYTES)));
     CudaMemset MemMatrixDev (wrap_size_t (wrap_int (nRows * ROW_LEN_BYTES)));
     Malloc stateHost (16 * sizeof_uint64_t);
     Memset stateHost (16 * sizeof_uint64_t);
     CudaMalloc stateDev (16 * sizeof_uint64_t);
     CudaMemset stateDev (16 * sizeof_uint64_t);
     CudaMalloc rowADev sizeof_int;
     CudaMemset rowADev sizeof_int;
     Malloc MemMatrixHost ROW_LEN_BYTES;
     Memset MemMatrixHost ROW_LEN_BYTES;
     CudaMemcpyHostToDevice (load_bytes (staged_input m) 0 (Z.to_nat ROW_LEN_BYTES));
     Memset MemMatrixHost ROW_LEN_BYTES].

(** The byte and the word constants describe the same block and row: the
    matrix is indexed in 64-bit words (lines 274 and 280) and sized in bytes
    (lines 93 and 187). *)
Definition header_ok : Prop :=
  0 < BLOCK_LEN_INT64 /\
  BLOCK_LEN_BYTES = sizeof_uint64_t * BLOCK_LEN_INT64 /\
  ROW_LEN_BYTES = sizeof_uint64_t * ROW_LEN_INT64.

(** The block at word [p] is a whole block of row 0. *)
Definition in_row0 (p : Z) : Prop :=
  0 <= p /\ p + BLOCK_LEN_INT64 <= ROW_LEN_INT64 /\
  p mod BLOCK_LEN_INT64 = 0.

(** An absorb is of a block of row 0 or of the first block of row [rowa]. *)
Definition absorbs_known_block (ev : event) : Prop :=
  match fst ev with
  | AbsorbBlock p => in_row0 p \/ p = wrap_int (rowa e * ROW_LEN_INT64)
  | _ => True
  end.

(** The block an absorb reads and the row a reduced squeeze writes lie
    inside the [nRows * ROW_LEN_INT64] words of the matrix. *)
Definition in_matrix (ev : event) : Prop :=
  match fst ev with
  | AbsorbBlock p => 0 <= p /\ p + BLOCK_LEN_INT64 <= nRows * ROW_LEN_INT64
  | ReducedSqueezeRow p => 0 <= p /\ p + ROW_LEN_INT64 <= nRows * ROW_LEN_INT64
  | _ => True
  end.

(** ** The staging row: block count, layout and padding *)

Lemma accepted_bound :
  well_formed -> too_long = false -> 0 <= pwdlen + saltlen <= ROW_LEN_BYTES.
Proof.
  intros (Hp & Hs & Hsum) Hacc. unfold too_long in Hacc.
  rewrite wrap_int_small in Hacc by (unfold INT_MAX in *; lia).
  rewrite Z.gtb_ltb in Hacc. apply Z.ltb_ge in Hacc. lia.
Qed.

Lemma nBlocksInput_eq :
  0 <= pwdlen -> 0 <= saltlen ->
  pwdlen + saltlen + 6 * sizeof_int < INT_MAX ->
  0 < BLOCK_LEN_BYTES <= INT_MAX ->
  nBlocksInput = (pwdlen + saltlen + 6 * sizeof_int) / BLOCK_LEN_BYTES + 1.
Proof.
  intros Hp Hs Hsum HB. unfold nBlocksInput, sizeof_int, INT_MAX in *.
  rewrite (wrap_int_small (saltlen + pwdlen)) by (unfold INT_MAX; lia).
  rewrite (wrap_size_t_small (saltlen + pwdlen)) by lia.
  rewrite (wrap_size_t_small (saltlen + pwdlen + 6 * 4)) by lia.
  rewrite (wrap_size_t_small BLOCK_LEN_BYTES) by lia.
  assert (Hq : 0 <= (saltlen + pwdlen + 6 * 4) / BLOCK_LEN_BYTES
               <= saltlen + pwdlen + 6 * 4).
  { split; [apply Z.div_pos; lia|].
    apply Z.div_le_upper_bound; [lia|]. nia. }
  rewrite wrap_size_t_small by lia.
  rewrite wrap_int_small by (unfold INT_MAX; lia).
  now rewrite (Z.add_comm saltlen pwdlen).
Qed.

(** C1. The number of input blocks reserved is
    floor((pwdlen + saltlen + 6*sizeof(int)) / BLOCK_LEN_BYTES) + 1; when the
    sum is a multiple of the block length, a whole further block is reserved. *)
Theorem nBlocksInput_floor_plus_one :
  0 <= pwdlen -> 0 <= saltlen ->
  pwdlen + saltlen + 6 * sizeof_int < INT_MAX ->
  0 < BLOCK_LEN_BYTES <= INT_MAX ->
  nBlocksInput = (pwdlen + saltlen + 6 * sizeof_int) / BLOCK_LEN_BYTES + 1 /\
  ((pwdlen + saltlen + 6 * sizeof_int) mod BLOCK_LEN_BYTES = 0 ->
   nBlocksInput * BLOCK_LEN_BYTES =
   (pwdlen + saltlen + 6 * sizeof_int) + BLOCK_LEN_BYTES).
Proof.
  intros Hp Hs Hsum HB. split; [now apply nBlocksInput_eq|].
  intros Hmod. rewrite nBlocksInput_eq by assumption.
  set (x := pwdlen + saltlen + 6 * sizeof_int) in *.
  pose proof (Z.div_mod x BLOCK_LEN_BYTES ltac:(lia)) as Hdm.
  rewrite Hmod in Hdm. lia.
Qed.

(** The block count is at least one block beyond the end of the basil. *)
Lemma footprint_bounds :
  0 <= pwdlen -> 0 <= saltlen ->
  pwdlen + saltlen + 6 * sizeof_int < INT_MAX ->
  0 < BLOCK_LEN_BYTES <= INT_MAX ->
  pwdlen + saltlen + 6 * sizeof_int < nBlocksInput * BLOCK_LEN_BYTES
  <= pwdlen + saltlen + 6 * sizeof_int + BLOCK_LEN_BYTES.
Proof.
  intros Hp Hs Hsum HB. rewrite nBlocksInput_eq by assumption.
  set (x := pwdlen + saltlen + 6 * sizeof_int) in *.
  pose proof (Z.div_mod x BLOCK_LEN_BYTES ltac:(lia)) as Hdm.
  pose proof (Z.mod_pos_bound x BLOCK_LEN_BYTES ltac:(lia)) as Hm.
  lia.
Qed.

Lemma last_pad_offset_eq :
  well_formed -> too_long = false -> consts_ok ->
  last_pad_offset =
  ((pwdlen + saltlen + 6 * sizeof_int) / BLOCK_LEN_BYTES + 1) * BLOCK_LEN_BYTES - 1 /\
  pwdlen + saltlen + 6 * sizeof_int <= last_pad_offset.
Proof.
  intros Hwf Hacc (HB & HR & Hmax).
  pose proof (accepted_bound Hwf Hacc) as Hsum.
  destruct Hwf as (Hp & Hs & _).
  assert (H0p : 0 <= pwdlen) by lia. assert (H0s : 0 <= saltlen) by lia.
  assert (Hlt : pwdlen + saltlen + 6 * sizeof_int < INT_MAX) by lia.
  assert (HB' : 0 < BLOCK_LEN_BYTES <= INT_MAX)
    by (unfold sizeof_int in *; lia).
  pose proof (footprint_bounds H0p H0s Hlt HB') as Hfp.
  unfold last_pad_offset.
  rewrite wrap_int_small by (unfold INT_MAX, sizeof_int in *; lia).
  rewrite <- (nBlocksInput_eq H0p H0s Hlt HB'). lia.
Qed.

Lemma write_bytes_app l1 : forall m a l2,
  write_bytes m a (l1 ++ l2) =
  write_bytes (write_bytes m a l1) (a + Z.of_nat (length l1)) l2.
Proof.
  induction l1 as [|b l1 IH]; intros m a l2; cbn [app write_bytes length].
  - now rewrite Z.add_0_r.
  - rewrite IH, Nat2Z.inj_succ. f_equal. lia.
Qed.

Lemma memcpy_all m dst src n :
  Z.of_nat (length src) = n -> n < 2 ^ 64 -> memcpy m dst src n = write_bytes m dst src.
Proof.
  intros Hn Hlt. unfold memcpy. rewrite wrap_size_t_small by lia.
  rewrite <- Hn, Nat2Z.id. now rewrite firstn_all.
Qed.

(** Lines 206-226 write [pwd ++ salt ++ basil] from offset 0 on and leave
    [ptrMem] just behind it. *)
Lemma concat_input_eq m :
  well_formed ->
  concat_input m =
  (write_bytes m 0 (pwd ++ salt ++ basil), pwdlen + saltlen + 6 * sizeof_int).
Proof.
  intros (Hp & Hs & Hsum). unfold concat_input, basil, INT_MAX in *.
  repeat rewrite memcpy_all by first [assumption | reflexivity | lia].
  f_equal; [|unfold sizeof_int; lia].
  rewrite !write_bytes_app, !int_bytes_length.
  unfold sizeof_int. rewrite <- Hp, <- Hs.
  repeat (f_equal; try lia).
Qed.

Lemma basil_length : length basil = 24%nat.
Proof. reflexivity. Qed.

Lemma input_length :
  well_formed ->
  Z.of_nat (length (pwd ++ salt ++ basil)) = pwdlen + saltlen + 6 * sizeof_int.
Proof.
  intros (Hp & Hs & _). rewrite !length_app, basil_length.
  unfold sizeof_int. lia.
Qed.

(** C2. The builder writes 0x80 right behind the basil, then XORs the last
    byte of the last reserved block with 0x01; when both positions coincide
    the byte ends as 0x80 XOR 0x01; no other byte changes. *)
Theorem padding_markers (m : mem) :
  well_formed -> too_long = false -> consts_ok ->
  let end_of_basil := pwdlen + saltlen + 6 * sizeof_int in
  let last :=
    (end_of_basil / BLOCK_LEN_BYTES + 1) * BLOCK_LEN_BYTES - 1 in
  let before := fst (concat_input m) in
  let after := pad_input (concat_input m) in
  snd (concat_input m) = end_of_basil /\
  last_pad_offset = last /\
  end_of_basil <= last /\
  (end_of_basil < last ->
   after end_of_basil = 128 /\ after last = Z.lxor (before last) 1) /\
  (end_of_basil = last -> after last = Z.lxor 128 1) /\
  (forall x, x <> end_of_basil -> x <> last -> after x = before x).
Proof.
  intros Hwf Hacc Hok. cbv zeta.
  destruct (last_pad_offset_eq Hwf Hacc Hok) as [Hlast Hle].
  rewrite (concat_input_eq m Hwf). unfold pad_input. cbn [fst snd].
  rewrite Hlast in *.
  set (x := pwdlen + saltlen + 6 * sizeof_int) in *.
  set (l := (x / BLOCK_LEN_BYTES + 1) * BLOCK_LEN_BYTES - 1) in *.
  repeat split.
  - exact Hle.
  - rewrite store_neq by lia. apply store_eq.
  - rewrite store_eq. rewrite store_neq by lia. reflexivity.
  - intros Heq. rewrite <- Heq, !store_eq. reflexivity.
  - intros a Hx Hl. rewrite !store_neq by assumption. reflexivity.
Qed.


(** ** Runs of [LYRA2] *)

Lemma absorbed_cons p ws :
  absorbed (p :: ws) = absorbed ws ++ [(AbsorbBlock p, true)].
Proof. reflexivity. Qed.

Lemma absorbed_is_absorb ws : Forall is_absorb (absorbed ws).
Proof.
  unfold absorbed. apply Forall_rev, Forall_map, Forall_forall.
  intros p _. now exists p, true.
Qed.

(** A loop of at least one iteration either absorbs every block, leaving no
    error pending, or leaves [LYRA2] with -1 after some absorbs and the
    releases of its error branch. *)
Lemma absorb_loop_run n : forall i p w,
  (absorb_loop (S n) i p w =
     (Next tt, mkWorld false (hostRow w) (absorbed (loop_words (S n) i p) ++ trace w))
   /\ lastError w = false)
  \/
  (exists L, Forall is_absorb L /\
     absorb_loop (S n) i p w =
     (Returned (-1),
      mkWorld loop_unwind_error (hostRow w) (loop_unwind ++ L ++ trace w))).
Proof.
  induction n as [|n IH]; intros i p w.
  - cbn [absorb_loop bind cuda cudaGetLastError lastError hostRow trace].
    destruct (lastError w || fails e (L261 i)) eqn:E.
    + right. exists [(AbsorbBlock p, negb (fails e (L261 i)))]. split.
      * constructor; [|constructor]. now eexists _, _.
      * reflexivity.
    + left. apply orb_false_elim in E as [E1 E2]. rewrite E2. split; [reflexivity|assumption].
  - remember (S n) as n1 eqn:Hn1.
    cbn [absorb_loop bind cuda cudaGetLastError lastError hostRow trace].
    destruct (lastError w || fails e (L261 i)) eqn:E.
    + right. exists [(AbsorbBlock p, negb (fails e (L261 i)))]. split.
      * constructor; [|constructor]. now eexists _, _.
      * reflexivity.
    + apply orb_false_elim in E as [E1 E2]. rewrite E2. subst n1.
      cbn [negb].
      destruct (IH (i + 1) (wrap_int ((i + 1) * BLOCK_LEN_INT64))
                  (mkWorld false (hostRow w) ((AbsorbBlock p, true) :: trace w)))
        as [[Heq _] | (L & HL & Heq)]; rewrite Heq; cbn [hostRow trace].
      * left. split; [|assumption].
        cbn [loop_words]. rewrite (absorbed_cons p), <- app_assoc. reflexivity.
      * right. exists (L ++ [(AbsorbBlock p, true)]). split.
        -- apply Forall_app. split; [assumption|].
           constructor; [|constructor]. now eexists _, _.
        -- rewrite <- !app_assoc. reflexivity.
Qed.

(** Symbolic execution of the body: reduce up to the next error check and
    split on it; on the passing side every call checked there succeeded. *)
Ltac reduce_run :=
  cbn [bind cuda malloc log cudaGetLastError cudaFree free printf_error
       host_write host_row memset_host ret exit lastError hostRow trace
       orb negb start].

Ltac faults_known H :=
  idtac;
  repeat match type of H with
         | context [fails ?en ?s] =>
             let F := fresh "F" in
             destruct (fails en s) eqn:F; rewrite ?F in H;
             cbn [orb negb] in H; try discriminate H; clear F
         end;
  clear H.

(** Fold the claim about the run into one opaque predicate of its result. *)
Ltac abstract_run :=
  lazymatch goal with
  | |- context [LYRA2 ?w] =>
      pattern (LYRA2 w);
      lazymatch goal with
      | |- ?P _ => let Claim := fresh "Claim" in set (Claim := P)
      end;
      unfold LYRA2, LYRA2_body
  end.

Ltac enter_loop :=
  reduce_run;
  lazymatch goal with
  | |- context [bind (absorb_loop (Z.to_nat ?n) ?i ?p) ?K ?w] =>
      let k := fresh "k" in
      let Heq := fresh "Heq" in
      let Herr := fresh "Herr" in
      let L := fresh "L" in
      let HL := fresh "HL" in
      destruct (Z.to_nat n) as [|k] eqn:?;
      [ unfold bind at 1; cbn [absorb_loop ret]
      | destruct (absorb_loop_run k i p w) as [[Heq Herr] | (L & HL & Heq)];
        [ rewrite (bind_Next _ K _ _ _ Heq); clear Heq;
          cbn [lastError orb] in Herr; faults_known Herr
        | rewrite (bind_Returned _ K _ _ _ Heq); clear Heq ] ];
      reduce_run
  end.

Ltac open_claim :=
  lazymatch goal with
  | Claim := _ |- _ => subst Claim; cbv beta; cbn [fst snd]
  end.

(** One error check: [fin] closes the run that leaves through its branch. *)
Ltac next_check fin :=
  reduce_run;
  lazymatch goal with
  | |- context [if ?c then _ else _] =>
      let E := fresh "E" in
      destruct c eqn:E;
      [ faults_known E; reduce_run; solve [open_claim; fin]
      | faults_known E; reduce_run ]
  end.

(** Every path through [LYRA2], each closed by [fin] on its final result. *)
Ltac run_paths fin :=
  abstract_run;
  do 10 (next_check fin);
  enter_loop; [ | | solve [open_claim; fin]];
  do 4 (next_check fin);
  reduce_run;
  lazymatch goal with
  | |- context [if ?c then _ else _] =>
      let E := fresh "E" in
      destruct c eqn:E; faults_known E; reduce_run; solve [open_claim; fin]
  end.

(** Absorbs are neither acquisitions nor releases, and do not touch [K]. *)
Lemma absorbs_acquire_nothing {L} : Forall is_absorb L -> flat_map acquisition L = [].
Proof.
  induction 1 as [|ev L (p & b & ->) _ IH]; [reflexivity|].
  cbn [flat_map]. rewrite IH. now destruct b.
Qed.

Lemma absorbs_release_nothing {L} : Forall is_absorb L -> flat_map release L = [].
Proof.
  induction 1 as [|ev L (p & b & ->) _ IH]; [reflexivity|].
  cbn [flat_map]. now rewrite IH.
Qed.

Lemma absorbs_write_nothing {L} : Forall is_absorb L -> flat_map output_write L = [].
Proof.
  induction 1 as [|ev L (p & b & ->) _ IH]; [reflexivity|].
  cbn [flat_map]. now rewrite IH.
Qed.

Lemma absorbs_engine {L} : Forall is_absorb L -> flat_map engine L = L.
Proof.
  induction 1 as [|ev L (p & b & ->) _ IH]; [reflexivity|].
  cbn [flat_map]. now rewrite IH.
Qed.

Lemma absorbed_succeeded ws : Forall (fun ev => snd ev = true) (absorbed ws).
Proof.
  unfold absorbed. apply Forall_rev, Forall_map, Forall_forall. now intros.
Qed.

Lemma loop_words_from n : forall a,
  loop_words n (Z.of_nat a) (wrap_int (Z.of_nat a * BLOCK_LEN_INT64)) =
  map (fun j => wrap_int (Z.of_nat j * BLOCK_LEN_INT64)) (seq a n).
Proof.
  induction n as [|n IH]; intros a; [reflexivity|].
  cbn [loop_words seq map]. f_equal.
  replace (Z.of_nat a + 1) with (Z.of_nat (S a)) by lia. apply IH.
Qed.

Lemma loop_words_block_words n :
  Z.to_nat nBlocksInput = n -> loop_words n 0 0 = block_words.
Proof.
  intros <-. unfold block_words. apply (loop_words_from _ 0).
Qed.

(** C4. When [pwdlen + saltlen] exceeds [ROW_LEN_BYTES], [LYRA2] returns -1
    and leaves the world as it found it: nothing was allocated and no call,
    to the sponge engine or otherwise, was made. *)
Theorem too_long_rejected (w : world) :
  0 <= pwdlen -> 0 <= saltlen -> pwdlen + saltlen <= INT_MAX ->
  ROW_LEN_BYTES < pwdlen + saltlen ->
  LYRA2 w = (-1, w).
Proof.
  intros Hp Hs Hsum Hlong. unfold LYRA2, LYRA2_body, too_long.
  rewrite wrap_int_small by (unfold INT_MAX in *; lia).
  rewrite Z.gtb_ltb. apply Z.ltb_lt in Hlong. rewrite Hlong. reflexivity.
Qed.

(** Normal form of the projections of a finished run. *)
Ltac read_trace :=
  unfold events; cbn [trace start];
  rewrite ?release_count_rev, ?acquisitions_rev, ?releases_rev,
          ?engine_calls_rev, ?output_writes_rev;
  unfold release_count, acquisitions, releases, engine_calls, output_writes,
         loop_unwind;
  cbn [flat_map acquisition release engine output_write is_engine fst snd app];
  rewrite ?flat_map_app;
  repeat match goal with
         | H : Forall is_absorb ?L |- _ =>
             rewrite ?(absorbs_acquire_nothing H), ?(absorbs_release_nothing H),
                     ?(absorbs_write_nothing H)
         end;
  rewrite ?(absorbs_acquire_nothing (absorbed_is_absorb _)),
          ?(absorbs_release_nothing (absorbed_is_absorb _)),
          ?(absorbs_write_nothing (absorbed_is_absorb _)),
          ?(absorbs_engine (absorbed_is_absorb _));
  cbn [flat_map acquisition release engine output_write is_engine fst snd app].

(** C5, as the code has it.  On every exit path no buffer is released twice,
    and each of the device matrix, the host and device sponge states and the
    device row index that was acquired is released exactly once.  On the
    success path all five buffers, the host staging row included, are acquired
    and released exactly once, in the order of lines 350-365: the matrix
    first, then the device state, the row index, the host state and the
    staging row. *)
Theorem releases_balanced (m : mem) :
  let r := LYRA2 (start m) in
  let t := events (snd r) in
  (forall x, (release_count x t <= 1)%nat) /\
  (forall x, x <> MemMatrixHost -> In x (acquisitions t) ->
             release_count x t = 1%nat) /\
  (fst r = 0 ->
   acquisitions t = [MemMatrixDev; stateHost; stateDev; rowADev; MemMatrixHost] /\
   releases t = [MemMatrixDev; stateDev; rowADev; stateHost; MemMatrixHost]).
Proof.
  cbv zeta.
  run_paths ltac:(
    split; [intros x; read_trace; destruct x; cbn; lia|];
    split; [intros x Hx; read_trace; intros Hin; destruct x; try congruence;
            cbn in Hin |- *; intuition (try discriminate; auto)|];
    intros H0; try discriminate H0; read_trace; split; reflexivity).
Qed.

(** C8. On the success path the engine is driven in this order: [initState],
    the absorbs of blocks 0 .. nBlocksInput-1 in index order, the two
    [reducedSqueezeRow] launches for rows 0 and 1, [setupGPU] for the other
    rows, [wandering], one more absorb of row [rowa], and the final
    [squeeze]; each exactly once and each succeeding. *)
Theorem phases_in_order (m : mem) :
  fst (LYRA2 (start m)) = 0 ->
  engine_calls (events (snd (LYRA2 (start m)))) =
  map succeeded
    ([InitState] ++ map AbsorbBlock block_words ++
     [ReducedSqueezeRow 0; ReducedSqueezeRow ROW_LEN_INT64;
      SetupGPU nRows; Wandering timeCost nRows;
      AbsorbBlock (wrap_int (rowa e * ROW_LEN_INT64)); Squeeze kLen]).
Proof.
  run_paths ltac:(
    first
      [ solve [intros H0; discriminate H0]
      | intros _; read_trace;
        rewrite <- (loop_words_block_words _ ltac:(eassumption));
        cbn [rev]; rewrite ?rev_app_distr; unfold absorbed;
        rewrite ?rev_involutive; cbn [rev app map];
        rewrite <- ?app_assoc; cbn [app];
        rewrite ?map_app, ?map_map; reflexivity ]).
Qed.

(** C9, as the code has it.  [LYRA2] returns 0 or -1.  When it returns -1,
    either [squeeze] was never called, so the caller's buffer is untouched,
    or every call before [squeeze] succeeded and the -1 is the one of the
    check that follows the final wipe of the sponge state (line 353), taken
    because one of the three calls it covers failed: [squeeze], the
    [cudaFree] of the matrix (line 350) or that wipe (line 352). *)
Theorem failure_before_squeeze_keeps_output (m : mem) :
  let r := LYRA2 (start m) in
  let t := events (snd r) in
  (fst r = 0 \/ fst r = -1) /\
  (fst r = -1 ->
   output_writes t = [] \/
   exists pre s f z a b,
     t = pre ++ late_failure s f z a b /\
     Forall (fun ev => snd ev = true) pre /\
     (s = false \/ f = false \/ z = false)).
Proof.
  cbv zeta.
  run_paths ltac:(
    split; [auto|];
    intros H1; try discriminate H1;
    first
      [ left; read_trace; reflexivity
      | right; unfold events; cbn [trace];
        lazymatch goal with
        | |- context [rev (?a1 :: ?a2 :: ?a3 :: ?a4 :: ?a5 :: ?a6 :: ?a7 :: ?X)] =>
            change (a1 :: a2 :: a3 :: a4 :: a5 :: a6 :: a7 :: X)
              with ([a1; a2; a3; a4; a5; a6; a7] ++ X);
            rewrite rev_app_distr; exists (rev X)
        end;
        eexists _, _, _, _, _; split; [reflexivity|];
        split; [|auto];
        apply Forall_rev;
        repeat first [ apply Forall_cons; [reflexivity|]
                     | apply Forall_app; split; [apply absorbed_succeeded|]
                     | apply Forall_nil ] ]).
Qed.


(** X2. Once the copy to the device has succeeded, the staging row holds zeros
    over its [ROW_LEN_BYTES] bytes on every exit path (line 248). *)
Theorem staging_row_wiped_after_copy (m : mem) (d : list byte) (x : Z) :
  In (CudaMemcpyHostToDevice d, true) (events (snd (LYRA2 (start m)))) ->
  0 <= x < ROW_LEN_BYTES ->
  hostRow (snd (LYRA2 (start m))) x = 0.
Proof.
  run_paths ltac:(
    first
      [ solve [ intros _ Hx; cbn [hostRow]; unfold memset;
                replace ((0 <=? x) && (x <? 0 + ROW_LEN_BYTES)) with true
                  by (symmetry; apply andb_true_intro; split;
                      [apply Z.leb_le | apply Z.ltb_lt]; lia);
                reflexivity ]
      | intros Hin _; exfalso; revert Hin; unfold events; cbn [trace start];
        rewrite <- in_rev; cbn [In]; intuition discriminate ]).
Qed.

(** X3. The padded input fits the staging row when the password, the salt and the
    basil leave at least one byte of the row free, the row being a whole
    number of blocks. *)
Theorem footprint_fits_with_room :
  0 <= pwdlen -> 0 <= saltlen -> consts_ok ->
  ROW_LEN_BYTES mod BLOCK_LEN_BYTES = 0 ->
  pwdlen + saltlen + 6 * sizeof_int < ROW_LEN_BYTES ->
  nBlocksInput * BLOCK_LEN_BYTES <= ROW_LEN_BYTES /\
  0 <= last_pad_offset < ROW_LEN_BYTES.
Proof.
  intros Hp Hs (HB & HR & Hmax) Hmod Hroom.
  assert (Hlt : pwdlen + saltlen + 6 * sizeof_int < INT_MAX)
    by (unfold sizeof_int in *; lia).
  assert (HB' : 0 < BLOCK_LEN_BYTES <= INT_MAX)
    by (unfold sizeof_int in *; lia).
  pose proof (nBlocksInput_eq Hp Hs Hlt HB') as Hn.
  pose proof (footprint_bounds Hp Hs Hlt HB') as Hfp.
  assert (Hfit : nBlocksInput * BLOCK_LEN_BYTES <= ROW_LEN_BYTES).
  { rewrite Hn.
    set (x := pwdlen + saltlen + 6 * sizeof_int) in *.
    apply Z.mod_divide in Hmod; [|lia]. destruct Hmod as [q Hq].
    assert (x / BLOCK_LEN_BYTES < q).
    { apply Z.div_lt_upper_bound; [lia|]. rewrite Z.mul_comm. lia. }
    nia. }
  split; [exact Hfit|].
  unfold last_pad_offset.
  rewrite wrap_int_small by (unfold INT_MAX, sizeof_int in *; lia).
  unfold sizeof_int in *. lia.
Qed.

(** A password and salt that fill the row exactly are accepted at line 85,
    whatever the header constants: the reserved blocks then exceed the row. *)
Lemma row_filling_input_overruns :
  0 <= pwdlen -> 0 <= saltlen -> consts_ok ->
  pwdlen + saltlen = ROW_LEN_BYTES ->
  too_long = false /\ ROW_LEN_BYTES < nBlocksInput * BLOCK_LEN_BYTES.
Proof.
  intros Hp Hs (HB & HR & Hmax) Hfull.
  assert (Hlt : pwdlen + saltlen + 6 * sizeof_int < INT_MAX)
    by (unfold sizeof_int in *; lia).
  assert (HB' : 0 < BLOCK_LEN_BYTES <= INT_MAX)
    by (unfold sizeof_int in *; lia).
  pose proof (footprint_bounds Hp Hs Hlt HB') as Hfp.
  split.
  - unfold too_long. rewrite wrap_int_small by (unfold INT_MAX, sizeof_int in *; lia).
    rewrite Z.gtb_ltb. apply Z.ltb_ge. lia.
  - unfold sizeof_int in *. lia.
Qed.

(** ** Further properties of the runs *)

Lemma absorb_of_is_absorb ws L : Forall (absorb_of ws) L -> Forall is_absorb L.
Proof.
  apply Forall_impl. intros ev (p & b & -> & _). now exists p, b.
Qed.

(** The loop once more, keeping what its error branch knows: the blocks the
    absorbs were launched on, and that a call failed. *)
Lemma absorb_loop_cases n : forall i p w,
  (absorb_loop (S n) i p w =
     (Next tt, mkWorld false (hostRow w) (absorbed (loop_words (S n) i p) ++ trace w))
   /\ lastError w = false)
  \/
  (exists L, Forall (absorb_of (loop_words (S n) i p)) L /\
     (lastError w = true \/ Exists (fun ev => snd ev = false) L) /\
     absorb_loop (S n) i p w =
     (Returned (-1),
      mkWorld loop_unwind_error (hostRow w) (loop_unwind ++ L ++ trace w))).
Proof.
  induction n as [|n IH]; intros i p w.
  - cbn [absorb_loop bind cuda cudaGetLastError lastError hostRow trace loop_words].
    destruct (lastError w || fails e (L261 i)) eqn:E.
    + right. exists [(AbsorbBlock p, negb (fails e (L261 i)))]. split; [|split].
      * constructor; [|constructor]. eexists _, _. split; [reflexivity|now left].
      * apply orb_true_iff in E as [E|E]; [now left|right].
        constructor. cbn [snd]. now rewrite E.
      * reflexivity.
    + left. apply orb_false_elim in E as [E1 E2]. rewrite E2.
      split; [reflexivity|assumption].
  - remember (S n) as n1 eqn:Hn1.
    cbn [absorb_loop bind cuda cudaGetLastError lastError hostRow trace].
    destruct (lastError w || fails e (L261 i)) eqn:E.
    + right. exists [(AbsorbBlock p, negb (fails e (L261 i)))]. split; [|split].
      * constructor; [|constructor]. eexists _, _. split; [reflexivity|now left].
      * apply orb_true_iff in E as [E|E]; [now left|right].
        constructor. cbn [snd]. now rewrite E.
      * reflexivity.
    + apply orb_false_elim in E as [E1 E2]. rewrite E2. subst n1.
      cbn [negb].
      destruct (IH (i + 1) (wrap_int ((i + 1) * BLOCK_LEN_INT64))
                  (mkWorld false (hostRow w) ((AbsorbBlock p, true) :: trace w)))
        as [[Heq _] | (L & HL & HF & Heq)]; rewrite Heq; cbn [hostRow trace].
      * left. split; [|assumption].
        cbn [loop_words]. rewrite (absorbed_cons p), <- app_assoc. reflexivity.
      * right. exists (L ++ [(AbsorbBlock p, true)]). split; [|split].
        -- apply Forall_app. split.
           ++ revert HL. apply Forall_impl. intros ev (q & b & -> & Hq).
              exists q, b. split; [reflexivity|]. cbn [loop_words]. now right.
           ++ constructor; [|constructor].
              eexists _, _. split; [reflexivity|]. cbn [loop_words]. now left.
        -- destruct HF as [HF|HF]; [discriminate HF|].
           right. apply Exists_app. now left.
        -- rewrite <- !app_assoc. reflexivity.
Qed.

Lemma succeeded_not_failed (L : list event) :
  Forall (fun ev => snd ev = true) L -> Exists (fun ev => snd ev = false) L -> False.
Proof.
  intros HA HE. apply Exists_exists in HE as (ev & Hin & Hf).
  rewrite Forall_forall in HA. apply HA in Hin. congruence.
Qed.

(** The loop with its failure cause: in the error branch either [initState]
    had failed, which is recorded in the goal, or an absorb of [L] did. *)
Ltac enter_loop_cases :=
  reduce_run;
  lazymatch goal with
  | |- context [bind (absorb_loop (Z.to_nat ?n) ?i ?p) ?K ?w] =>
      let k := fresh "k" in
      let Heq := fresh "Heq" in
      let Herr := fresh "Herr" in
      let L := fresh "L" in
      let HW := fresh "HW" in
      let HL := fresh "HL" in
      let HF := fresh "HF" in
      destruct (Z.to_nat n) as [|k] eqn:?;
      [ unfold bind at 1; cbn [absorb_loop ret]
      | destruct (absorb_loop_cases k i p w) as [[Heq Herr] | (L & HW & HF & Heq)];
        [ rewrite (bind_Next _ K _ _ _ Heq); clear Heq;
          cbn [lastError orb] in Herr; faults_known Herr
        | rewrite (bind_Returned _ K _ _ _ Heq); clear Heq;
          pose proof (absorb_of_is_absorb _ _ HW) as HL;
          cbn [lastError orb] in HF;
          destruct HF as [HF|HF]; [rewrite ?HF; clear HF|] ] ];
      reduce_run
  end.

(** Every path of an accepted call ([Hacc : too_long = false]). *)
Ltac run_accepted_paths Hacc fin :=
  abstract_run; rewrite Hacc;
  do 9 (next_check fin);
  enter_loop_cases; [ | | solve [open_claim; fin] | solve [open_claim; fin]];
  do 4 (next_check fin);
  reduce_run;
  lazymatch goal with
  | |- context [if ?c then _ else _] =>
      let E := fresh "E" in
      destruct c eqn:E; faults_known E; reduce_run; solve [open_claim; fin]
  end.

(** Every path, with the loop's failure cause. *)
Ltac run_all_paths fin :=
  abstract_run;
  do 10 (next_check fin);
  enter_loop_cases; [ | | solve [open_claim; fin] | solve [open_claim; fin]];
  do 4 (next_check fin);
  reduce_run;
  lazymatch goal with
  | |- context [if ?c then _ else _] =>
      let E := fresh "E" in
      destruct c eqn:E; faults_known E; reduce_run; solve [open_claim; fin]
  end.

(** In a record of calls that all succeeded, latest first, find one that
    did not. *)
Ltac find_failed H :=
  unfold events in H; cbn [trace] in H;
  apply Forall_rev in H; rewrite rev_involutive in H;
  unfold loop_unwind in H; cbn [app] in H;
  repeat lazymatch type of H with
         | Forall _ (_ :: _) =>
             let H0 := fresh "H0" in
             apply Forall_cons_iff in H; destruct H as [H0 H];
             cbn [snd negb] in H0; try discriminate H0; clear H0
         | Forall _ (_ ++ _) =>
             let H0 := fresh "H0" in
             apply Forall_app in H; destruct H as [H0 H];
             try (lazymatch goal with
                  | HF : Exists _ _ |- _ => exact (succeeded_not_failed _ H0 HF)
                  end);
             clear H0
         end.

(** A run, started with no error pending, in which no call failed. *)
Lemma run_of_successes_returns_0 (m : mem) :
  too_long = false ->
  Forall (fun ev => snd ev = true) (events (snd (LYRA2 (start m)))) ->
  fst (LYRA2 (start m)) = 0.
Proof.
  intros Hacc.
  run_accepted_paths Hacc ltac:(
    first [ solve [intros _; reflexivity]
          | intros Hall; exfalso; find_failed Hall ]).
Qed.

(** *** Buffers are live when used *)

Lemma inb_true r l : inb r l = true <-> In r l.
Proof. unfold inb. destruct (in_dec resource_eq_dec r l); intuition discriminate. Qed.

Lemma uses_live_app l1 : forall acq rel l2,
  uses_live acq rel (l1 ++ l2) =
  uses_live acq rel l1 &&
  uses_live (acquired_after l1 acq) (released_after l1 rel) l2.
Proof.
  induction l1 as [|ev l1 IH]; intros acq rel l2; [reflexivity|].
  cbn [app uses_live acquired_after released_after fold_left].
  rewrite IH, andb_assoc. reflexivity.
Qed.

Lemma uses_live_absorbs Y : forall acq rel T,
  Forall is_absorb Y ->
  forallb (fun r => inb r acq && negb (inb r rel)) [stateDev; MemMatrixDev] = true ->
  uses_live acq rel (Y ++ T) = uses_live acq rel T.
Proof.
  induction Y as [|ev Y IH]; intros acq rel T HY Hlive; [reflexivity|].
  inversion HY as [|? ? (p & b & ->) HY']; subst.
  cbn [app uses_live fst uses]. rewrite Hlive.
  replace (acquisition (AbsorbBlock p, b)) with (@nil resource) by now destruct b.
  cbn [release fst app andb]. now apply IH.
Qed.

Lemma uses_live_sound t : forall acq rel,
  uses_live acq rel t = true ->
  forall pre ev post r,
    t = pre ++ ev :: post -> In r (uses (fst ev)) ->
    (In r (acquisitions pre) \/ In r acq) /\
    ~ (In r (releases pre) \/ In r rel).
Proof.
  induction t as [|ev0 t IH]; intros acq rel Hlive pre ev post r Ht Hr.
  - now destruct pre.
  - cbn [uses_live] in Hlive. apply andb_true_iff in Hlive as [Hnow Hrest].
    destruct pre as [|ev1 pre]; cbn [app] in Ht; injection Ht as -> ->.
    + rewrite forallb_forall in Hnow. apply Hnow in Hr.
      apply andb_true_iff in Hr as [Ha Hn].
      apply inb_true in Ha. apply negb_true_iff in Hn.
      split; [now right|]. intros [[]|Hin].
      apply inb_true in Hin. congruence.
    + destruct (IH _ _ Hrest pre ev post r eq_refl Hr) as [Ha Hn].
      unfold acquisitions, releases. cbn [flat_map].
      rewrite !in_app_iff in *. tauto.
Qed.

(** Chronological form of a finished record with absorbs in the middle. *)
Ltac chronological :=
  unfold events, loop_unwind; cbn [trace app rev];
  rewrite ?rev_app_distr, <- ?app_assoc.

Lemma uses_live_run (m : mem) :
  uses_live [] [] (events (snd (LYRA2 (start m)))) = true.
Proof.
  run_paths ltac:(
    chronological;
    first
      [ reflexivity
      | rewrite uses_live_app;
        rewrite uses_live_absorbs;
          [ reflexivity
          | first [ apply Forall_rev; assumption
                  | apply Forall_rev, absorbed_is_absorb ]
          | reflexivity ] ]).
Qed.

(** X5. No call of a run uses a buffer before it was acquired or after it
    was released: whenever a call reads or writes a buffer, that buffer's
    allocation succeeded earlier in the run and no [cudaFree] or [free] of it
    was called since. *)
Theorem buffers_live_when_used (m : mem) (pre post : list event)
    (ev : event) (r : resource) :
  events (snd (LYRA2 (start m))) = pre ++ ev :: post ->
  In r (uses (fst ev)) ->
  In r (acquisitions pre) /\ ~ In r (releases pre).
Proof.
  intros Hsplit Hr.
  destruct (uses_live_sound _ _ _ (uses_live_run m) _ _ _ _ Hsplit Hr) as [Ha Hn].
  split; [destruct Ha as [Ha|[]]; exact Ha | intros Hin; apply Hn; now left].
Qed.

(** *** What is copied to the device *)

Lemma load_bytes_const n : forall m a c,
  (forall j, a <= j < a + Z.of_nat n -> m j = c) ->
  load_bytes m a n = repeat c n.
Proof.
  induction n as [|n IH]; intros m a c H; [reflexivity|].
  cbn [load_bytes repeat]. f_equal; [apply H; lia|].
  apply IH. intros j Hj. apply H. lia.
Qed.

Lemma has_room_bounds :
  well_formed -> consts_ok -> has_room ->
  too_long = false /\
  last_pad_offset = nBlocksInput * BLOCK_LEN_BYTES - 1 /\
  last_pad_offset =
    ((pwdlen + saltlen + 6 * sizeof_int) / BLOCK_LEN_BYTES + 1) * BLOCK_LEN_BYTES - 1 /\
  pwdlen + saltlen + 6 * sizeof_int <= last_pad_offset < ROW_LEN_BYTES.
Proof.
  intros Hwf Hok [Hmod Hroom].
  assert (Hacc : too_long = false).
  { destruct Hwf as (Hp & Hs & Hsum). unfold too_long.
    rewrite wrap_int_small by (unfold INT_MAX in *; lia).
    rewrite Z.gtb_ltb. apply Z.ltb_ge. unfold sizeof_int in *. lia. }
  destruct (last_pad_offset_eq Hwf Hacc Hok) as [Hlast Hle].
  destruct Hok as (HB & HR & Hmax).
  pose proof Hwf as (Hp & Hs & _).
  assert (H0p : 0 <= pwdlen) by lia. assert (H0s : 0 <= saltlen) by lia.
  assert (Hlt : pwdlen + saltlen + 6 * sizeof_int < INT_MAX)
    by (unfold sizeof_int in *; lia).
  assert (HB' : 0 < BLOCK_LEN_BYTES <= INT_MAX)
    by (unfold sizeof_int in *; lia).
  pose proof (nBlocksInput_eq H0p H0s Hlt HB') as Hn.
  repeat split; try assumption.
  - rewrite Hlast, Hn. reflexivity.
  - rewrite Hlast.
    set (x := pwdlen + saltlen + 6 * sizeof_int) in *.
    apply Z.mod_divide in Hmod; [|lia]. destruct Hmod as [q Hq].
    assert (x / BLOCK_LEN_BYTES < q).
    { apply Z.div_lt_upper_bound; [lia|]. rewrite Z.mul_comm. lia. }
    nia.
Qed.

(** X4. A call that is entered with no CUDA error pending, on buffers of the
    stated lengths and an input that has room in the row, returns 0 when
    every call it makes succeeds. *)
Theorem all_calls_succeeded_returns_0 (w : world) :
  well_formed -> consts_ok -> has_room ->
  lastError w = false -> trace w = [] ->
  Forall (fun ev => snd ev = true) (events (snd (LYRA2 w))) ->
  fst (LYRA2 w) = 0.
Proof.
  intros Hwf Hok Hroom Hle Htr.
  destruct (has_room_bounds Hwf Hok Hroom) as (Hacc & _).
  destruct w as [le hr tr]. cbn [lastError trace] in Hle, Htr. subst le tr.
  exact (run_of_successes_returns_0 hr Hacc).
Qed.

(** The staging row byte by byte, for an input that has room. *)
Lemma staged_input_at (m : mem) :
  well_formed -> consts_ok -> has_room ->
  let x := pwdlen + saltlen + 6 * sizeof_int in
  let last := last_pad_offset in
  load_bytes (staged_input m) 0 (length (pwd ++ salt ++ basil)) = pwd ++ salt ++ basil /\
  staged_input m x = (if x =? last then 129 else 128) /\
  staged_input m last = (if x =? last then 129 else 1) /\
  (forall j, x < j < ROW_LEN_BYTES -> j <> last -> staged_input m j = 0).
Proof.
  intros Hwf Hok Hroom. cbv zeta.
  destruct (has_room_bounds Hwf Hok Hroom) as (Hacc & _ & _ & Hle & Hlt).
  pose proof (input_length Hwf) as Hlen.
  unfold staged_input. rewrite (concat_input_eq _ Hwf). unfold pad_input.
  set (x := pwdlen + saltlen + 6 * sizeof_int) in *.
  set (M := pwd ++ salt ++ basil) in *.
  assert (Hzero : forall j, x <= j < ROW_LEN_BYTES ->
            write_bytes (memset m 0 0 ROW_LEN_BYTES) 0 M j = 0).
  { intros j Hj. rewrite write_bytes_above by lia. unfold memset.
    replace ((0 <=? j) && (j <? 0 + ROW_LEN_BYTES)) with true; [reflexivity|].
    symmetry. apply andb_true_intro. split; [apply Z.leb_le | apply Z.ltb_lt]; lia. }
  repeat split.
  - etransitivity; [|apply (load_write_bytes M (memset m 0 0 ROW_LEN_BYTES) 0)].
    apply load_bytes_ext. intros j Hj. rewrite !store_neq by lia. reflexivity.
  - destruct (Z.eqb_spec x last_pad_offset) as [Heq|Hne].
    + rewrite <- Heq, !store_eq. reflexivity.
    + rewrite store_neq by lia. apply store_eq.
  - rewrite store_eq.
    destruct (Z.eqb_spec x last_pad_offset) as [Heq|Hne].
    + rewrite <- Heq, store_eq. reflexivity.
    + rewrite store_neq by lia. rewrite Hzero by lia. reflexivity.
  - intros j Hj Hjl. rewrite !store_neq by lia. apply Hzero. lia.
Qed.

Lemma pad10star1_length (M : list byte) :
  0 < BLOCK_LEN_BYTES ->
  Z.of_nat (length (pad10star1 BLOCK_LEN_BYTES M)) =
  (Z.of_nat (length M) / BLOCK_LEN_BYTES + 1) * BLOCK_LEN_BYTES.
Proof.
  intros HB. unfold pad10star1.
  set (x := Z.of_nat (length M)).
  pose proof (Z.div_mod x BLOCK_LEN_BYTES ltac:(lia)) as Hdm.
  pose proof (Z.mod_pos_bound x BLOCK_LEN_BYTES ltac:(lia)) as Hm.
  destruct (Z.eqb_spec x ((x / BLOCK_LEN_BYTES + 1) * BLOCK_LEN_BYTES - 1)) as [Heq|Hne].
  - rewrite length_app. cbn [length]. lia.
  - rewrite length_app. cbn [length]. rewrite length_app, repeat_length.
    cbn [length]. lia.
Qed.

(** The row as it is copied: the padded input, then zeros up to the end. *)
Lemma staged_row (m : mem) :
  well_formed -> consts_ok -> has_room ->
  load_bytes (staged_input m) 0 (Z.to_nat ROW_LEN_BYTES) =
  pad10star1 BLOCK_LEN_BYTES (pwd ++ salt ++ basil) ++
  repeat 0 (Z.to_nat (ROW_LEN_BYTES - nBlocksInput * BLOCK_LEN_BYTES)).
Proof.
  intros Hwf Hok Hroom.
  destruct (has_room_bounds Hwf Hok Hroom) as (Hacc & Hlast & Hlast' & Hle & Hlt).
  destruct (staged_input_at m Hwf Hok Hroom) as (HM & Hx & Hl & Hz).
  pose proof (input_length Hwf) as Hlen.
  set (M := pwd ++ salt ++ basil) in *.
  set (x := pwdlen + saltlen + 6 * sizeof_int) in *.
  set (last := last_pad_offset) in *.
  replace (Z.to_nat ROW_LEN_BYTES)
    with (length M + (Z.to_nat (last - x + 1) + Z.to_nat (ROW_LEN_BYTES - last - 1)))%nat
    by lia.
  rewrite !load_bytes_app, HM, Hlen.
  replace (ROW_LEN_BYTES - nBlocksInput * BLOCK_LEN_BYTES)
    with (ROW_LEN_BYTES - last - 1) by lia.
  replace (0 + x) with x by lia.
  rewrite (load_bytes_const (Z.to_nat (ROW_LEN_BYTES - last - 1)) _ _ 0)
    by (intros j Hj; apply Hz; lia).
  rewrite app_assoc. f_equal.
  unfold pad10star1. rewrite Hlen, <- Hlast'. fold last.
  destruct (x =? last) eqn:E.
  - apply Z.eqb_eq in E. f_equal.
    replace (Z.to_nat (last - x + 1)) with 1%nat by lia.
    cbn [load_bytes]. now rewrite Hx.
  - apply Z.eqb_neq in E. f_equal.
    replace (Z.to_nat (last - x + 1))
      with (1 + (Z.to_nat (last - x - 1) + 1))%nat by lia.
    rewrite !load_bytes_app. cbn [load_bytes Nat.add]. rewrite Hx.
    change (Z.of_nat 1) with 1.
    rewrite (load_bytes_const (Z.to_nat (last - x - 1)) _ _ 0)
      by (intros j Hj; apply Hz; lia).
    replace (x + 1 + Z.of_nat (Z.to_nat (last - x - 1))) with last by lia.
    rewrite Hl. reflexivity.
Qed.

Lemma copy_not_absorb (L : list event) d ok :
  Forall is_absorb L -> ~ In (CudaMemcpyHostToDevice d, ok) L.
Proof.
  intros HL Hin. rewrite Forall_forall in HL.
  destruct (HL _ Hin) as (p & b & Heq). discriminate Heq.
Qed.

(** Whatever a run copies to the device is the staging row of lines 200-232. *)
Lemma copied_data (m : mem) (d : list byte) (ok : bool) :
  In (CudaMemcpyHostToDevice d, ok) (events (snd (LYRA2 (start m)))) ->
  d = load_bytes (staged_input m) 0 (Z.to_nat ROW_LEN_BYTES).
Proof.
  run_paths ltac:(
    unfold events, loop_unwind; cbn [trace start app];
    rewrite <- in_rev; cbn [In]; rewrite ?in_app_iff; cbn [In];
    intros Hin;
    repeat (destruct Hin as [Hin|Hin]);
    first [ discriminate Hin
          | contradiction
          | apply (f_equal (fun ev : event =>
                              match fst ev with
                              | CudaMemcpyHostToDevice x => x
                              | _ => []
                              end)) in Hin;
            symmetry; exact Hin
          | exfalso; eapply copy_not_absorb; [|exact Hin];
            first [assumption | apply absorbed_is_absorb] ]).
Qed.



(** X6. The row an accepted call copies to the device is the 10*1 padding
    of [pwd ++ salt ++ basil], which takes exactly [nBlocksInput] blocks,
    followed by zeros up to the end of the row; this for every input that
    has room for it. *)
Theorem device_row_is_padded_input (m : mem) (d : list byte) (ok : bool) :
  well_formed -> consts_ok -> has_room ->
  In (CudaMemcpyHostToDevice d, ok) (events (snd (LYRA2 (start m)))) ->
  d = pad10star1 BLOCK_LEN_BYTES (pwd ++ salt ++ basil) ++
      repeat 0 (Z.to_nat (ROW_LEN_BYTES - nBlocksInput * BLOCK_LEN_BYTES)) /\
  Z.of_nat (length (pad10star1 BLOCK_LEN_BYTES (pwd ++ salt ++ basil))) =
  nBlocksInput * BLOCK_LEN_BYTES.
Proof.
  intros Hwf Hok Hroom Hin. split.
  - rewrite (copied_data m d ok Hin). now apply staged_row.
  - destruct (has_room_bounds Hwf Hok Hroom) as (_ & Hlast & Hlast' & _).
    destruct Hok as (HB & _). rewrite pad10star1_length by assumption.
    rewrite (input_length Hwf). lia.
Qed.

(** X7. The sponge engine is invoked only after the twelve calls of the
    prologue have all succeeded: a run with any engine call starts with
    them, the padded input being on the device and the staging row wiped. *)
Theorem engine_runs_after_prologue (m : mem) :
  engine_calls (events (snd (LYRA2 (start m)))) <> [] ->
  exists rest, events (snd (LYRA2 (start m))) = prologue m ++ rest.
Proof.
  run_paths ltac:(
    first
      [ solve [intros Hne; exfalso; apply Hne; read_trace; reflexivity]
      | intros _; eexists; chronological; unfold prologue;
        cbn [rev app map succeeded]; reflexivity ]).
Qed.

(** *** Where the engine is pointed *)

(** With room for the input, the blocks the loop absorbs are whole blocks of
    row 0, the row that was copied. *)
Lemma block_words_in_row0 :
  well_formed -> consts_ok -> has_room -> header_ok ->
  Forall in_row0 block_words.
Proof.
  intros Hwf Hok Hroom (HB64 & HBB & HRB).
  destruct (has_room_bounds Hwf Hok Hroom) as (_ & Hlast & _ & Hle & Hlt).
  destruct Hok as (HB & HR & Hmax).
  pose proof Hwf as (Hp & Hs & _).
  unfold sizeof_uint64_t, sizeof_int in *.
  assert (Hn : 0 < nBlocksInput).
  { destruct (Z.le_gt_cases nBlocksInput 0) as [Hle0|Hgt0]; [|lia].
    assert (nBlocksInput * BLOCK_LEN_BYTES <= 0) by nia. lia. }
  assert (Hfit : nBlocksInput * BLOCK_LEN_INT64 <= ROW_LEN_INT64) by nia.
  unfold block_words. apply Forall_map, Forall_forall. intros j Hj.
  apply in_seq in Hj.
  assert (Hjn : 0 <= Z.of_nat j < nBlocksInput) by lia.
  assert (Hjb : 0 <= Z.of_nat j * BLOCK_LEN_INT64
                <= (nBlocksInput - 1) * BLOCK_LEN_INT64) by nia.
  rewrite wrap_int_small by (unfold INT_MAX in *; nia).
  unfold in_row0. repeat split; [lia | nia | apply Z.mod_mul; lia].
Qed.

Lemma absorbed_Forall (P : event -> Prop) (Q : Z -> Prop) ws :
  (forall p b, Q p -> P (AbsorbBlock p, b)) ->
  Forall Q ws -> Forall P (absorbed ws).
Proof.
  intros HPQ HQ. unfold absorbed. apply Forall_rev, Forall_map.
  revert HQ. apply Forall_impl. intros p Hp. now apply HPQ.
Qed.

Lemma absorb_of_Forall (P : event -> Prop) (Q : Z -> Prop) ws L :
  (forall p b, Q p -> P (AbsorbBlock p, b)) ->
  Forall Q ws -> Forall (absorb_of ws) L -> Forall P L.
Proof.
  intros HPQ HQ. apply Forall_impl. intros ev (p & b & -> & Hin).
  apply HPQ. rewrite Forall_forall in HQ. now apply HQ.
Qed.

(** A property of every call of a finished run: [one] proves it of a single
    call, [HPQ] and [HQ] of the absorbs of the loop. *)
Ltac forall_events HPQ HQ one :=
  unfold events, loop_unwind; cbn [trace app start];
  apply Forall_rev;
  repeat first
    [ apply Forall_nil
    | apply Forall_cons; [solve [one] |]
    | apply Forall_app; split;
      [ first
          [ apply (absorbed_Forall _ _ _ HPQ);
            rewrite (loop_words_block_words _ ltac:(eassumption)); exact HQ
          | lazymatch goal with
            | HW : Forall (absorb_of _) ?L |- Forall _ ?L =>
                refine (absorb_of_Forall _ _ _ _ HPQ _ HW);
                rewrite (loop_words_block_words _ ltac:(eassumption)); exact HQ
            end ]
      | ] ].

(** X8. With room for the input, every absorb of a run reads a whole block
    of row 0, the row the padded input was copied to, or is the wrap-up
    absorb of the first block of row [rowa]. *)
Theorem absorbs_read_staged_blocks (m : mem) :
  well_formed -> consts_ok -> has_room -> header_ok ->
  Forall absorbs_known_block (events (snd (LYRA2 (start m)))).
Proof.
  intros Hwf Hok Hroom Hhd.
  pose proof (block_words_in_row0 Hwf Hok Hroom Hhd) as HQ.
  assert (HPQ : forall p (b : bool), in_row0 p -> absorbs_known_block (AbsorbBlock p, b))
    by (intros p b Hp; now left).
  run_all_paths ltac:(
    forall_events HPQ HQ
      ltac:(first [ exact I | right; reflexivity ])).
Qed.

(** X9. With room for the input, at least two rows, a matrix whose size in
    bytes an [int] can hold, and a row index in range from the wandering
    kernel: the run starts by asking [cudaMalloc] for the
    [nRows * ROW_LEN_INT64] words of the matrix, and every block handed to
    [absorbBlock] and every row handed to [reducedSqueezeRow] lies inside
    these words. *)
Theorem engine_stays_in_matrix (m : mem) :
  well_formed -> consts_ok -> has_room -> header_ok ->
  2 <= nRows -> nRows * ROW_LEN_BYTES <= INT_MAX ->
  0 <= rowa e < nRows ->
  (exists ok rest,
     events (snd (LYRA2 (start m))) =
     (CudaMalloc MemMatrixDev (sizeof_uint64_t * (nRows * ROW_LEN_INT64)), ok)
     :: rest) /\
  Forall in_matrix (events (snd (LYRA2 (start m)))).
Proof.
  intros Hwf Hok Hroom Hhd Hrows Hbytes Hrowa.
  pose proof (block_words_in_row0 Hwf Hok Hroom Hhd) as HQ0.
  destruct (has_room_bounds Hwf Hok Hroom) as (Hacc & _).
  destruct Hhd as (HB64 & HBB & HRB). destruct Hroom as [Hmod Hroom].
  pose proof Hok as (HB & HR & Hmax).
  unfold sizeof_uint64_t, sizeof_int in *.
  assert (HBR : BLOCK_LEN_INT64 <= ROW_LEN_INT64).
  { pose proof Hwf as (Hp & Hs & _).
    apply Z.mod_divide in Hmod; [|lia]. destruct Hmod as [q Hq].
    assert (1 <= q) by nia. nia. }
  assert (Hmat : nRows * ROW_LEN_INT64 <= INT_MAX) by nia.
  assert (Hsz : wrap_size_t (wrap_int (nRows * ROW_LEN_BYTES)) =
                8 * (nRows * ROW_LEN_INT64)).
  { rewrite wrap_int_small by (unfold INT_MAX in *; nia).
    rewrite wrap_size_t_small by (unfold INT_MAX in *; nia). lia. }
  assert (HR0 : in_matrix (ReducedSqueezeRow 0, true))
    by (unfold in_matrix; cbn [fst]; nia).
  assert (HR1 : in_matrix (ReducedSqueezeRow ROW_LEN_INT64, true))
    by (unfold in_matrix; cbn [fst]; nia).
  assert (HWU : forall b, in_matrix (AbsorbBlock (wrap_int (rowa e * ROW_LEN_INT64)), b)).
  { intros b. unfold in_matrix. cbn [fst].
    rewrite wrap_int_small by (unfold INT_MAX in *; nia). nia. }
  assert (HQ : Forall (fun p => 0 <= p /\ p + BLOCK_LEN_INT64 <= nRows * ROW_LEN_INT64)
                 block_words).
  { revert HQ0. apply Forall_impl. intros p (H0 & H1 & _). nia. }
  assert (HPQ : forall p (b : bool),
             0 <= p /\ p + BLOCK_LEN_INT64 <= nRows * ROW_LEN_INT64 ->
             in_matrix (AbsorbBlock p, b)) by (intros p b Hp; exact Hp).
  run_accepted_paths Hacc ltac:(
    split;
    [ eexists _, _; chronological; cbn [rev app]; rewrite Hsz; reflexivity
    | forall_events HPQ HQ
        ltac:(first [ exact I | exact HR0 | exact HR1 | apply HWU ]) ]).
Qed.

(** X11. [LYRA2] does not check [nRows]: with a single row (or none), every
    call that returns 0 has handed [reducedSqueezeRow] the row that starts at
    word [ROW_LEN_INT64], which lies past the end of the matrix. *)
Theorem single_row_matrix_is_overrun (m : mem) :
  nRows <= 1 -> 0 < ROW_LEN_INT64 ->
  fst (LYRA2 (start m)) = 0 ->
  In (ReducedSqueezeRow ROW_LEN_INT64, true) (events (snd (LYRA2 (start m)))) /\
  ~ in_matrix (ReducedSqueezeRow ROW_LEN_INT64, true).
Proof.
  intros Hrows Hrow.
  run_paths ltac:(
    first
      [ solve [intros H0; discriminate H0]
      | intros _; split;
        [ unfold events; cbn [trace]; rewrite <- in_rev; cbn [In];
          repeat (first [left; reflexivity | right])
        | unfold in_matrix; cbn [fst]; nia ] ]).
Qed.

End Lyra2.

(** [PHS] (lines 44-50) casts its pointers and forwards to [LYRA2] with
    [N_COLS] columns; its [size_t] and [unsigned] arguments become [int]s. *)
Definition PHS (e : env)
    (BLOCK_LEN_INT64 BLOCK_LEN_BYTES ROW_LEN_INT64 ROW_LEN_BYTES N_COLS : Z)
    (outlen : Z) (inPWD : list byte) (inlen : Z) (saltG : list byte)
    (saltlen t_cost m_cost : Z) (w : world) : Z * world :=
  LYRA2 e BLOCK_LEN_INT64 BLOCK_LEN_BYTES ROW_LEN_INT64 ROW_LEN_BYTES
        (wrap_int outlen) inPWD (wrap_int inlen) saltG (wrap_int saltlen)
        (wrap_int t_cost) (wrap_int m_cost) N_COLS w.

(** ** Runs with the reference constants *)

(** [LYRA2] with the reference constants, on buffers of the stated contents,
    started on a staging area that holds zeros. *)
Definition ref_LYRA2 (e : env) (kLen : Z) (pwd salt : list byte)
    (timeCost nRows : Z) : Z * world :=
  LYRA2 e ref_BLOCK_LEN_INT64 ref_BLOCK_LEN_BYTES ref_ROW_LEN_INT64
        ref_ROW_LEN_BYTES kLen pwd (Z.of_nat (length pwd)) salt
        (Z.of_nat (length salt)) timeCost nRows ref_N_COLS (start (fun _ => 0)).

(** *** Witnesses *)

Lemma nBlocksInput_floor_plus_one_witness :
  nBlocksInput 64 36 4 = (36 + 4 + 6 * sizeof_int) / 64 + 1 /\
  ((36 + 4 + 6 * sizeof_int) mod 64 = 0 ->
   nBlocksInput 64 36 4 * 64 = 36 + 4 + 6 * sizeof_int + 64).
Proof.
  apply (nBlocksInput_floor_plus_one 64 36 4);
    unfold sizeof_int, INT_MAX; lia.
Defined.

Lemma sample_well_formed (p s : list byte) :
  (length p + length s <= 4096)%nat ->
  well_formed p (Z.of_nat (length p)) s (Z.of_nat (length s)).
Proof. unfold well_formed, INT_MAX. lia. Qed.

Lemma ref_consts_ok : consts_ok ref_BLOCK_LEN_BYTES ref_ROW_LEN_BYTES.
Proof.
  unfold consts_ok, ref_BLOCK_LEN_BYTES, ref_ROW_LEN_BYTES, sizeof_int, INT_MAX.
  lia.
Qed.

(** 35 + 4 + 24 = 63: the 0x80 marker and the last byte of the block
    coincide, and the byte ends as 0x81. *)
Lemma padding_markers_witness :
  pad_input 64 35 4
    (concat_input 64 (repeat 97 35) 35 sample_salt 4 1 4 64 (fun _ => 0)) 63
  = Z.lxor 128 1.
Proof.
  pose proof (padding_markers 64 4096 64 (repeat 97 35) 35 sample_salt 4 1 4 64
                (fun _ => 0)
                (sample_well_formed (repeat 97 35) sample_salt ltac:(cbn; lia))
                eq_refl ref_consts_ok) as H.
  cbv zeta in H. destruct H as (_ & _ & _ & _ & H & _).
  apply H. reflexivity.
Defined.


Lemma too_long_rejected_witness :
  LYRA2 no_fault 8 64 512 4096 64 (repeat 97 4097) 4097 [] 0 1 4 64
        (start (fun _ => 0))
  = (-1, start (fun _ => 0)).
Proof.
  apply (too_long_rejected no_fault 8 64 512 4096 64 (repeat 97 4097) 4097 []
           0 1 4 64 (start (fun _ => 0))); unfold INT_MAX; lia.
Defined.

Lemma phases_in_order_witness :
  engine_calls (events (snd (ref_LYRA2 no_fault 64 sample_pwd sample_salt 1 4))) =
  [(InitState, true); (AbsorbBlock 0, true);
   (ReducedSqueezeRow 0, true); (ReducedSqueezeRow 512, true);
   (SetupGPU 4, true); (Wandering 1 4, true);
   (AbsorbBlock 0, true); (Squeeze 64, true)].
Proof.
  exact (phases_in_order no_fault 8 64 512 4096 64 sample_pwd 8 sample_salt 4
           1 4 64 (fun _ => 0) eq_refl).
Defined.


Lemma staging_row_wiped_after_copy_witness :
  hostRow (snd (ref_LYRA2 no_fault 64 sample_pwd sample_salt 1 4)) 0 = 0.
Proof.
  apply (staging_row_wiped_after_copy no_fault 8 64 512 4096 64 sample_pwd 8
           sample_salt 4 1 4 64 (fun _ => 0)
           (load_bytes
              (staged_input 64 4096 64 sample_pwd 8 sample_salt 4 1 4 64
                 (fun _ => 0)) 0 4096) 0);
    [|lia].
  apply (nth_error_In _ 10). vm_compute. reflexivity.
Defined.

Lemma footprint_fits_with_room_witness :
  nBlocksInput 64 4000 71 * 64 <= 4096 /\
  0 <= last_pad_offset 64 4000 71 < 4096.
Proof.
  apply (footprint_fits_with_room 64 4096 4000 71);
    [lia | lia | exact ref_consts_ok | reflexivity | unfold sizeof_int; lia].
Defined.

(** The padding of the sample input: 0x80 at offset 36, right behind the
    basil, zeros up to offset 62 and 0x01 at offset 63, the last byte of the
    only block. *)
Example sample_padding :
  load_bytes
    (staged_input 64 4096 64 sample_pwd 8 sample_salt 4 1 4 64 (fun _ => 0))
    36 28 =
  128 :: repeat 0 26 ++ [1].
Proof. vm_compute. reflexivity. Qed.

(** *** Where the code departs from the specification *)

(** C5, counterexample.  On the fault-free run the five buffers are acquired
    as matrix, host state, device state, row index, staging row and released
    as matrix, device state, row index, host state, staging row: the releases
    are not the acquisitions reversed. *)
Lemma release_order_not_reversed :
  let r := ref_LYRA2 no_fault 64 sample_pwd sample_salt 1 4 in
  let t := events (snd r) in
  fst r = 0 /\
  acquisitions t = [MemMatrixDev; stateHost; stateDev; rowADev; MemMatrixHost] /\
  releases t = [MemMatrixDev; stateDev; rowADev; stateHost; MemMatrixHost] /\
  releases t <> rev (acquisitions t).
Proof.
  vm_compute. repeat split. discriminate.
Qed.

(** C9, counterexample.  When only the final wipe of the sponge state (line
    352) fails, [LYRA2] returns -1 although [squeeze] has already run, with
    success, on the caller's buffer. *)
Lemma failure_after_squeeze :
  let r := ref_LYRA2 (fault_at L352) 64 sample_pwd sample_salt 1 4 in
  fst r = -1 /\ output_writes (events (snd r)) = [(Squeeze 64, true)].
Proof. vm_compute. split; reflexivity. Qed.

(** C6, at the failing inputs.  When [wandering] fails, [stateDev] is handed
    to [cudaFree] holding what the absorbs and the setup wrote, with no wipe
    in between.  When the copy to the device fails, [LYRA2] returns with the
    password still in the staging row, which is neither wiped nor released.
    On the fault-free run the state is wiped before it is released. *)
Theorem sensitive_buffers_left_unwiped :
  let r := ref_LYRA2 (fault_at L298) 64 sample_pwd sample_salt 1 4 in
  let r' := ref_LYRA2 (fault_at L235) 64 sample_pwd sample_salt 1 4 in
  (fst r = -1 /\
   sponge_released_dirty (events (snd r)) = true /\
   In (AbsorbBlock 0, true) (events (snd r)) /\
   release_count stateDev (events (snd r)) = 1%nat) /\
  (fst r' = -1 /\
   load_bytes (hostRow (snd r')) 0 8 = sample_pwd /\
   release_count MemMatrixHost (events (snd r')) = 0%nat) /\
  sponge_released_dirty
    (events (snd (ref_LYRA2 no_fault 64 sample_pwd sample_salt 1 4))) = false.
Proof.
  vm_compute. repeat split. auto 20.
Qed.

(** C7, at the failing input.  When the first [absorbBlock] fails, [LYRA2]
    returns -1 as claimed, but the staging row, acquired at line 187, is
    never released; the four other buffers are released once each. *)
Theorem engine_failure_leaks_staging_row :
  let r := ref_LYRA2 (fault_at (L261 0)) 64 sample_pwd sample_salt 1 4 in
  let t := events (snd r) in
  fst r = -1 /\
  acquisitions t = [MemMatrixDev; stateHost; stateDev; rowADev; MemMatrixHost] /\
  releases t = [stateHost; stateDev; MemMatrixDev; rowADev] /\
  release_count MemMatrixHost t = 0%nat.
Proof. vm_compute. repeat split. Qed.

(** C10, at the failing input.  A password of exactly [ROW_LEN_BYTES] bytes
    passes the check of line 85, yet 65 blocks are reserved: the padded input
    takes 4160 bytes of a 4096-byte row, the last padding byte is written at
    offset 4159, the copy to the device carries the password alone, and the
    loop absorbs a 65th block that starts at word 512, the first of row 1. *)
Theorem accepted_input_overruns_row :
  let pwd := repeat 97 4096 in
  let r := ref_LYRA2 no_fault 64 pwd [] 1 4 in
  too_long ref_ROW_LEN_BYTES 4096 0 = false /\
  nBlocksInput ref_BLOCK_LEN_BYTES 4096 0 = 65 /\
  ref_ROW_LEN_BYTES < nBlocksInput ref_BLOCK_LEN_BYTES 4096 0 * ref_BLOCK_LEN_BYTES /\
  last_pad_offset ref_BLOCK_LEN_BYTES 4096 0 = 4159 /\
  In (CudaMemcpyHostToDevice pwd, true) (events (snd r)) /\
  In (AbsorbBlock ref_ROW_LEN_INT64, true) (events (snd r)).
Proof.
  cbv zeta. split; [vm_compute; reflexivity|]. split; [vm_compute; reflexivity|].
  split; [vm_compute; reflexivity|]. split; [vm_compute; reflexivity|].
  split.
  - apply (nth_error_In _ 10). vm_compute. reflexivity.
  - apply (nth_error_In _ 77). vm_compute. reflexivity.
Qed.

(** ** Two calls: the staged row tells the inputs apart *)

Definition is_int (z : Z) : Prop := - 2 ^ 31 <= z <= INT_MAX.

Lemma load_bytes_pointwise n : forall m m' a,
  load_bytes m a n = load_bytes m' a n ->
  forall j, a <= j < a + Z.of_nat n -> m j = m' j.
Proof.
  induction n as [|n IH]; intros m m' a H j Hj; [lia|].
  cbn [load_bytes] in H. injection H as H0 H1.
  destruct (Z.eq_dec j a) as [->|Hne]; [assumption|].
  apply (IH _ _ _ H1). lia.
Qed.

Lemma app_same_length_inj {A} (a : list A) : forall a' b b',
  length a = length a' -> a ++ b = a' ++ b' -> a = a' /\ b = b'.
Proof.
  induction a as [|x a IH]; intros [|x' a'] b b' Hlen H; try discriminate Hlen.
  - now split.
  - cbn [app] in H. injection H as -> H. cbn [length] in Hlen.
    destruct (IH a' b b' ltac:(lia) H) as [-> ->]. now split.
Qed.

Lemma int_bytes_inj v v' :
  is_int v -> is_int v' -> int_bytes v = int_bytes v' -> v = v'.
Proof.
  unfold is_int, INT_MAX. intros Hv Hv' H.
  destruct (int_bytes_value v) as [_ Hval].
  destruct (int_bytes_value v') as [_ Hval'].
  rewrite H in Hval. rewrite Hval' in Hval.
  assert (Hw : wrap_int v = wrap_int v').
  { unfold wrap_int.
    rewrite <- (Zplus_mod_idemp_l v), <- (Zplus_mod_idemp_l v'), Hval.
    reflexivity. }
  rewrite !wrap_int_small in Hw by (unfold INT_MAX; lia). exact Hw.
Qed.

Section Separation.

Variable BLOCK_LEN_BYTES ROW_LEN_BYTES : Z.
Variables (kLen : Z) (pwd : list byte) (pwdlen : Z) (salt : list byte)
          (saltlen timeCost nRows nCols : Z) (m : mem).
Variables (kLen' : Z) (pwd' : list byte) (pwdlen' : Z) (salt' : list byte)
          (saltlen' timeCost' nRows' nCols' : Z) (m' : mem).

Local Notation "'row'" :=
  (staged_input BLOCK_LEN_BYTES ROW_LEN_BYTES kLen pwd pwdlen salt saltlen
                timeCost nRows nCols m).
Local Notation "'row''" :=
  (staged_input BLOCK_LEN_BYTES ROW_LEN_BYTES kLen' pwd' pwdlen' salt' saltlen'
                timeCost' nRows' nCols' m').

Hypothesis Hok : consts_ok BLOCK_LEN_BYTES ROW_LEN_BYTES.
Hypothesis Hwf : well_formed pwd pwdlen salt saltlen.
Hypothesis Hwf' : well_formed pwd' pwdlen' salt' saltlen'.
Hypothesis Hroom : has_room BLOCK_LEN_BYTES ROW_LEN_BYTES pwdlen saltlen.
Hypothesis Hroom' : has_room BLOCK_LEN_BYTES ROW_LEN_BYTES pwdlen' saltlen'.

(** Rows that agree byte for byte end their padding, and their basil, at the
    same offsets. *)
Lemma same_row_same_offsets :
  (forall j, 0 <= j < ROW_LEN_BYTES -> row j = row' j) ->
  pwdlen + saltlen = pwdlen' + saltlen'.
Proof.
  intros Hrow.
  destruct (has_room_bounds _ _ _ _ _ _ Hwf Hok Hroom) as (_ & _ & _ & Hle & Hlt).
  destruct (has_room_bounds _ _ _ _ _ _ Hwf' Hok Hroom') as (_ & _ & _ & Hle' & Hlt').
  destruct (staged_input_at _ _ kLen _ _ _ _ timeCost nRows nCols m Hwf Hok Hroom)
    as (_ & Hx & Hl & Hz).
  destruct (staged_input_at _ _ kLen' _ _ _ _ timeCost' nRows' nCols' m' Hwf' Hok Hroom')
    as (_ & Hx' & Hl' & Hz').
  pose proof Hwf as (Hp & Hs & _). pose proof Hwf' as (Hp' & Hs' & _).
  set (x := pwdlen + saltlen + 6 * sizeof_int) in *.
  set (x' := pwdlen' + saltlen' + 6 * sizeof_int) in *.
  set (l := last_pad_offset BLOCK_LEN_BYTES pwdlen saltlen) in *.
  set (l' := last_pad_offset BLOCK_LEN_BYTES pwdlen' saltlen') in *.
  assert (Hx0 : 0 <= x) by (unfold x, sizeof_int; lia).
  assert (Hx0' : 0 <= x') by (unfold x', sizeof_int; lia).
  assert (Hll : l = l').
  { destruct (Z.lt_trichotomy l l') as [Hlt0|[Heq|Hgt0]]; [|exact Heq|]; exfalso.
    - pose proof (Hrow l' ltac:(lia)) as E.
      rewrite Hz, Hl' in E by lia. destruct (x' =? l'); discriminate E.
    - pose proof (Hrow l ltac:(lia)) as E.
      rewrite Hz', Hl in E by lia. destruct (x =? l); discriminate E. }
  assert (Hxx : x = x').
  { destruct (Z.lt_trichotomy x x') as [Hlt0|[Heq|Hgt0]]; [|exact Heq|]; exfalso.
    - pose proof (Hrow x' ltac:(lia)) as E. rewrite Hx' in E.
      destruct (Z.eq_dec x' l') as [Hxl|Hxl].
      + rewrite Hxl, <- Hll, Hl in E.
        replace (x =? l) with false in E by (symmetry; apply Z.eqb_neq; lia).
        rewrite Hll, Z.eqb_refl in E. discriminate E.
      + rewrite Hz in E by lia.
        replace (x' =? l') with false in E by (symmetry; apply Z.eqb_neq; lia).
        discriminate E.
    - pose proof (Hrow x ltac:(lia)) as E. rewrite Hx in E.
      destruct (Z.eq_dec x l) as [Hxl|Hxl].
      + rewrite Hxl, Hll, Hl' in E.
        replace (x' =? l') with false in E by (symmetry; apply Z.eqb_neq; lia).
        rewrite <- Hll, Z.eqb_refl in E. discriminate E.
      + rewrite Hz' in E by lia.
        replace (x =? l) with false in E by (symmetry; apply Z.eqb_neq; lia).
        discriminate E. }
  unfold x, x' in Hxx. lia.
Qed.

Hypothesis Hints : is_int kLen /\ is_int timeCost /\ is_int nRows /\ is_int nCols.
Hypothesis Hints' : is_int kLen' /\ is_int timeCost' /\ is_int nRows' /\ is_int nCols'.

(** X10. Two calls that stage the same row were given the same password,
    the same salt and the same four parameters: the lengths in the basil
    and the 10*1 padding leave no two inputs with one staged row. *)
Theorem staged_row_determines_input :
  load_bytes row 0 (Z.to_nat ROW_LEN_BYTES) =
  load_bytes row' 0 (Z.to_nat ROW_LEN_BYTES) ->
  pwd = pwd' /\ salt = salt' /\
  kLen = kLen' /\ timeCost = timeCost' /\ nRows = nRows' /\ nCols = nCols'.
Proof.
  intros Heq.
  pose proof Hok as (HB & HR & Hmax).
  assert (Hrow : forall j, 0 <= j < ROW_LEN_BYTES -> row j = row' j).
  { intros j Hj. apply (load_bytes_pointwise _ _ _ _ Heq). lia. }
  pose proof (same_row_same_offsets Hrow) as Hsum.
  destruct (staged_input_at _ _ kLen _ _ _ _ timeCost nRows nCols m Hwf Hok Hroom)
    as (HM & _).
  destruct (staged_input_at _ _ kLen' _ _ _ _ timeCost' nRows' nCols' m' Hwf' Hok Hroom')
    as (HM' & _).
  pose proof (input_length kLen _ _ _ _ timeCost nRows nCols Hwf) as Hlen.
  pose proof (input_length kLen' _ _ _ _ timeCost' nRows' nCols' Hwf') as Hlen'.
  destruct Hroom as [_ Hr]. 
  assert (Hsame : length (pwd ++ salt ++ basil kLen pwdlen saltlen timeCost nRows nCols)
                  = length (pwd' ++ salt' ++ basil kLen' pwdlen' saltlen' timeCost' nRows' nCols'))
    by lia.
  assert (HMM : pwd ++ salt ++ basil kLen pwdlen saltlen timeCost nRows nCols =
                pwd' ++ salt' ++ basil kLen' pwdlen' saltlen' timeCost' nRows' nCols').
  { rewrite <- HM, <- HM', Hsame. apply load_bytes_ext.
    intros j Hj. apply Hrow. lia. }
  pose proof Hwf as (Hp & Hs & Hsm). pose proof Hwf' as (Hp' & Hs' & Hsm').
  rewrite !app_assoc in HMM.
  apply app_same_length_inj in HMM as [Hps Hbasil];
    [|rewrite !length_app; lia].
  unfold basil in Hbasil.
  repeat (apply app_same_length_inj in Hbasil as [? Hbasil]; [|reflexivity]).
  destruct Hints as (Hk & Ht & Hn & Hc). destruct Hints' as (Hk' & Ht' & Hn' & Hc').
  assert (Hpl : pwdlen = pwdlen').
  { apply int_bytes_inj; [unfold is_int, INT_MAX in *; lia ..|assumption]. }
  apply app_same_length_inj in Hps as [-> ->]; [|lia].
  repeat split; apply int_bytes_inj; assumption.
Qed.

End Separation.

(** ** [PHS] *)

(** X12. [PHS] hands its arguments to the basil in the order outlen, inlen,
    saltlen, t_cost, m_cost, and closes it with [N_COLS]: for arguments that
    fit an [int] and an input that has room, the row copied to the device is
    the 10*1 padding of [in ++ salt] followed by these six integers, then
    zeros. *)
Theorem PHS_stages_its_parameters (e : env)
    (BLOCK_LEN_INT64 BLOCK_LEN_BYTES ROW_LEN_INT64 ROW_LEN_BYTES N_COLS : Z)
    (outlen : Z) (inPWD : list byte) (inlen : Z) (saltG : list byte)
    (saltlen t_cost m_cost : Z) (m : mem) (d : list byte) (ok : bool) :
  Z.of_nat (length inPWD) = inlen -> Z.of_nat (length saltG) = saltlen ->
  0 <= outlen <= INT_MAX -> 0 <= t_cost <= INT_MAX -> 0 <= m_cost <= INT_MAX ->
  consts_ok BLOCK_LEN_BYTES ROW_LEN_BYTES ->
  has_room BLOCK_LEN_BYTES ROW_LEN_BYTES inlen saltlen ->
  In (CudaMemcpyHostToDevice d, ok)
     (events (snd (PHS e BLOCK_LEN_INT64 BLOCK_LEN_BYTES ROW_LEN_INT64
                       ROW_LEN_BYTES N_COLS outlen inPWD inlen saltG saltlen
                       t_cost m_cost (start m)))) ->
  d = pad10star1 BLOCK_LEN_BYTES
        (inPWD ++ saltG ++
         int_bytes outlen ++ int_bytes inlen ++ int_bytes saltlen ++
         int_bytes t_cost ++ int_bytes m_cost ++ int_bytes N_COLS) ++
      repeat 0 (Z.to_nat (ROW_LEN_BYTES -
                          nBlocksInput BLOCK_LEN_BYTES inlen saltlen * BLOCK_LEN_BYTES)).
Proof.
  intros Hin Hsalt Hout Ht Hm Hok Hroom Hcopy.
  pose proof Hok as (HB & HR & Hmax). pose proof Hroom as [_ Hr].
  unfold sizeof_int in *.
  assert (Hi : 0 <= inlen <= INT_MAX) by lia.
  assert (Hs : 0 <= saltlen <= INT_MAX) by lia.
  unfold PHS in Hcopy.
  rewrite !wrap_int_small in Hcopy by (unfold INT_MAX in *; lia).
  apply copied_data in Hcopy. rewrite Hcopy.
  apply staged_row; [|assumption..].
  unfold well_formed. repeat split; [assumption..|lia].
Qed.

(** ** Witnesses of the further properties *)

Lemma ref_header_ok :
  header_ok ref_BLOCK_LEN_INT64 ref_BLOCK_LEN_BYTES ref_ROW_LEN_INT64 ref_ROW_LEN_BYTES.
Proof. unfold header_ok. repeat split. Qed.

Lemma sample_has_room :
  has_room ref_BLOCK_LEN_BYTES ref_ROW_LEN_BYTES 8 4.
Proof. unfold has_room. split; [reflexivity|]. unfold sizeof_int, ref_ROW_LEN_BYTES. lia. Qed.

Lemma all_calls_succeeded_returns_0_witness :
  fst (ref_LYRA2 no_fault 64 sample_pwd sample_salt 1 4) = 0.
Proof.
  apply (all_calls_succeeded_returns_0 no_fault 8 64 512 4096 64 sample_pwd 8
           sample_salt 4 1 4 64 (start (fun _ => 0))
           (sample_well_formed sample_pwd sample_salt ltac:(cbn; lia))
           ref_consts_ok sample_has_room eq_refl eq_refl).
  vm_compute. repeat constructor.
Defined.

Lemma buffers_live_when_used_witness :
  let t := events (snd (ref_LYRA2 no_fault 64 sample_pwd sample_salt 1 4)) in
  In stateDev (acquisitions (firstn 12 t)) /\
  ~ In stateDev (releases (firstn 12 t)).
Proof.
  cbv zeta.
  apply (buffers_live_when_used no_fault 8 64 512 4096 64 sample_pwd 8
           sample_salt 4 1 4 64 (fun _ => 0)
           (firstn 12 (events (snd (ref_LYRA2 no_fault 64 sample_pwd sample_salt 1 4))))
           (skipn 13 (events (snd (ref_LYRA2 no_fault 64 sample_pwd sample_salt 1 4))))
           (InitState, true) stateDev).
  - vm_compute. reflexivity.
  - left. reflexivity.
Defined.

Lemma device_row_is_padded_input_witness :
  load_bytes
    (staged_input 64 4096 64 sample_pwd 8 sample_salt 4 1 4 64 (fun _ => 0))
    0 4096 =
  pad10star1 64
    (sample_pwd ++ sample_salt ++ basil 64 8 4 1 4 64) ++
  repeat 0 (Z.to_nat (4096 - nBlocksInput 64 8 4 * 64)) /\
  Z.of_nat (length (pad10star1 64 (sample_pwd ++ sample_salt ++ basil 64 8 4 1 4 64))) =
  nBlocksInput 64 8 4 * 64.
Proof.
  apply (device_row_is_padded_input no_fault 8 64 512 4096 64 sample_pwd 8
           sample_salt 4 1 4 64 (fun _ => 0) _ true
           (sample_well_formed sample_pwd sample_salt ltac:(cbn; lia))
           ref_consts_ok sample_has_room).
  apply (nth_error_In _ 10). vm_compute. reflexivity.
Defined.

Lemma engine_runs_after_prologue_witness :
  exists rest,
    events (snd (ref_LYRA2 (fault_at L298) 64 sample_pwd sample_salt 1 4)) =
    prologue 64 4096 64 sample_pwd 8 sample_salt 4 1 4 64 (fun _ => 0) ++ rest.
Proof.
  apply (engine_runs_after_prologue (fault_at L298) 8 64 512 4096 64 sample_pwd
           8 sample_salt 4 1 4 64 (fun _ => 0)).
  vm_compute. discriminate.
Defined.

Lemma absorbs_read_staged_blocks_witness :
  Forall (absorbs_known_block no_fault 8 512)
    (events (snd (ref_LYRA2 no_fault 64 sample_pwd sample_salt 1 4))).
Proof.
  exact (absorbs_read_staged_blocks no_fault 8 64 512 4096 64 sample_pwd 8
           sample_salt 4 1 4 64 (fun _ => 0)
           (sample_well_formed sample_pwd sample_salt ltac:(cbn; lia))
           ref_consts_ok sample_has_room ref_header_ok).
Defined.

Lemma engine_stays_in_matrix_witness :
  (exists ok rest,
     events (snd (ref_LYRA2 no_fault 64 sample_pwd sample_salt 1 4)) =
     (CudaMalloc MemMatrixDev (sizeof_uint64_t * (4 * 512)), ok) :: rest) /\
  Forall (in_matrix 8 512 4)
    (events (snd (ref_LYRA2 no_fault 64 sample_pwd sample_salt 1 4))).
Proof.
  apply (engine_stays_in_matrix no_fault 8 64 512 4096 64 sample_pwd 8
           sample_salt 4 1 4 64 (fun _ => 0)
           (sample_well_formed sample_pwd sample_salt ltac:(cbn; lia))
           ref_consts_ok sample_has_room ref_header_ok);
    unfold INT_MAX; cbn; lia.
Defined.

Lemma sample_ints : is_int 64 /\ is_int 1 /\ is_int 4 /\ is_int 64.
Proof. unfold is_int, INT_MAX. lia. Qed.

(** The same input staged over two different memories. *)
Lemma staged_row_determines_input_witness :
  sample_pwd = sample_pwd /\ sample_salt = sample_salt /\
  64 = 64 /\ 1 = 1 /\ 4 = 4 /\ 64 = 64.
Proof.
  apply (staged_row_determines_input 64 4096
           64 sample_pwd 8 sample_salt 4 1 4 64 (fun _ => 0)
           64 sample_pwd 8 sample_salt 4 1 4 64 (fun _ => 255)
           ref_consts_ok
           (sample_well_formed sample_pwd sample_salt ltac:(cbn; lia))
           (sample_well_formed sample_pwd sample_salt ltac:(cbn; lia))
           sample_has_room sample_has_room sample_ints sample_ints).
  vm_compute. reflexivity.
Defined.

Lemma single_row_matrix_is_overrun_witness :
  In (ReducedSqueezeRow 512, true)
     (events (snd (ref_LYRA2 no_fault 64 sample_pwd sample_salt 1 1))) /\
  ~ in_matrix 8 512 1 (ReducedSqueezeRow 512, true).
Proof.
  apply (single_row_matrix_is_overrun no_fault 8 64 512 4096 64 sample_pwd 8
           sample_salt 4 1 1 64 (fun _ => 0)); [lia | lia | reflexivity].
Defined.

Lemma PHS_stages_its_parameters_witness :
  load_bytes
    (staged_input 64 4096 64 sample_pwd 8 sample_salt 4 1 4 64 (fun _ => 0))
    0 4096 =
  pad10star1 64
    (sample_pwd ++ sample_salt ++
     int_bytes 64 ++ int_bytes 8 ++ int_bytes 4 ++
     int_bytes 1 ++ int_bytes 4 ++ int_bytes 64) ++
  repeat 0 (Z.to_nat (4096 - nBlocksInput 64 8 4 * 64)).
Proof.
  apply (PHS_stages_its_parameters no_fault 8 64 512 4096 64 64 sample_pwd 8
           sample_salt 4 1 4 (fun _ => 0) _ true eq_refl eq_refl);
    [unfold INT_MAX; lia .. | exact ref_consts_ok | exact sample_has_room |].
  apply (nth_error_In _ 10). vm_compute. reflexivity.
Defined.

(** ** [print64] (lines 53-59)

    [print64] writes the sixteen words at [v] to the standard output, each
    with ["%ld|"], then a newline.  The output is modelled as the string
    written; [v] gives the word at each index, and ["%ld"] reads a 64-bit
    word as a signed [long]. *)

From Stdlib Require String Ascii Decimal DecimalString DecimalPos DecimalZ.

Definition long_of_uint64 (w : Z) : Z := (w + 2 ^ 63) mod 2 ^ 64 - 2 ^ 63.

(** What [printf("%ld", z)] writes. *)
Definition printf_ld (z : Z) : String.string :=
  DecimalString.NilZero.string_of_int (Z.to_int z).

Definition bar : Ascii.ascii := Ascii.ascii_of_nat 124.
Definition newline : Ascii.ascii := Ascii.ascii_of_nat 10.

(** The loop of lines 55-57, [n] iterations from index [i] on. *)
Fixpoint print64_loop (n : nat) (i : Z) (v : Z -> Z) : String.string :=
  match n with
  | O => String.EmptyString
  | S n' =>
      String.append (printf_ld (long_of_uint64 (v i)))
        (String.String bar (print64_loop n' (i + 1) v))
  end.

Definition print64 (v : Z -> Z) : String.string :=
  String.append (print64_loop 16 0 v) (String.String newline String.EmptyString).

(** A reader of that output: the fields that end with a bar, each read as a
    decimal integer, and what follows the last bar. *)
Fixpoint fields (s : String.string) : list String.string * String.string :=
  match s with
  | String.EmptyString => ([], String.EmptyString)
  | String.String c s' =>
      let (fs, rest) := fields s' in
      if Ascii.eqb c bar then (String.EmptyString :: fs, rest)
      else match fs with
           | [] => ([], String.String c rest)
           | f :: fs' => (String.String c f :: fs', rest)
           end
  end.

Definition scan_ld (s : String.string) : option Z :=
  option_map Z.of_int (DecimalString.NilZero.int_of_string s).

Fixpoint scan_all (fs : list String.string) : option (list Z) :=
  match fs with
  | [] => Some []
  | f :: fs' =>
      match scan_ld f, scan_all fs' with
      | Some z, Some zs => Some (z :: zs)
      | _, _ => None
      end
  end.

Definition scan64 (out : String.string) : option (list Z) :=
  let (fs, rest) := fields out in
  if String.eqb rest (String.String newline String.EmptyString) then scan_all fs
  else None.

Fixpoint bar_free (s : String.string) : bool :=
  match s with
  | String.EmptyString => true
  | String.String c s' => negb (Ascii.eqb c bar) && bar_free s'
  end.

Lemma bar_free_uint d :
  bar_free (DecimalString.NilEmpty.string_of_uint d) = true.
Proof. induction d; cbn; try rewrite IHd; reflexivity. Qed.

Lemma bar_free_printf_ld z : bar_free (printf_ld z) = true.
Proof.
  unfold printf_ld. destruct (Z.to_int z) as [d|d];
    cbn [DecimalString.NilZero.string_of_int];
    [|cbn [bar_free];
      lazymatch goal with
      | |- context [Ascii.eqb ?c bar] => change (Ascii.eqb c bar) with false
      end;
      cbn [negb andb]];
    (destruct d; [reflexivity | apply bar_free_uint ..]).
Qed.

Lemma fields_field f : forall s,
  bar_free f = true ->
  fields (String.append f (String.String bar s)) =
  (f :: fst (fields s), snd (fields s)).
Proof.
  induction f as [|c f IH]; intros s Hf.
  - cbn [String.append fields]. rewrite Ascii.eqb_refl. now destruct (fields s).
  - cbn [bar_free] in Hf. apply andb_true_iff in Hf as [Hc Hf].
    apply negb_true_iff in Hc.
    cbn [String.append fields]. rewrite (IH s Hf), Hc. reflexivity.
Qed.

Lemma scan_ld_printf_ld z : scan_ld (printf_ld z) = Some z.
Proof.
  unfold scan_ld, printf_ld.
  rewrite DecimalString.NilZero.isi.
  - cbn [option_map]. now rewrite DecimalZ.of_to.
  - destruct z as [|p|p]; cbn; try discriminate.
    intros [= H]. now apply DecimalPos.Unsigned.to_uint_nonnil in H.
  - destruct z as [|p|p]; cbn; try discriminate.
    intros [= H]. now apply DecimalPos.Unsigned.to_uint_nonnil in H.
Qed.

Lemma append_assoc (a b c : String.string) :
  String.append (String.append a b) c = String.append a (String.append b c).
Proof. induction a as [|x a IH]; cbn [String.append]; [reflexivity | now rewrite IH]. Qed.

(** What [print64] writes, as its reader splits it. *)
Lemma fields_print64_loop n : forall i v tail,
  fields (String.append (print64_loop n i v) tail) =
  (map (fun k => printf_ld (long_of_uint64 (v (i + Z.of_nat k)))) (seq 0 n)
     ++ fst (fields tail),
   snd (fields tail)).
Proof.
  induction n as [|n IH]; intros i v tail.
  - cbn [print64_loop String.append seq map app]. now destruct (fields tail).
  - cbn [print64_loop]. rewrite append_assoc. cbn [String.append].
    rewrite fields_field by apply bar_free_printf_ld.
    rewrite IH. cbn [fst snd seq map app]. rewrite Z.add_0_r.
    rewrite <- seq_shift, map_map. f_equal. f_equal. f_equal.
    apply map_ext. intros k. do 3 f_equal. lia.
Qed.

Lemma scan_all_printf_ld zs : scan_all (map printf_ld zs) = Some zs.
Proof.
  induction zs as [|z zs IH]; [reflexivity|].
  cbn [map scan_all]. now rewrite scan_ld_printf_ld, IH.
Qed.

Lemma long_of_uint64_mod w :
  0 <= w < 2 ^ 64 -> long_of_uint64 w mod 2 ^ 64 = w.
Proof.
  intros Hw. unfold long_of_uint64.
  rewrite Zminus_mod, Z.mod_mod by lia.
  rewrite <- Zminus_mod. replace (w + 2 ^ 63 - 2 ^ 63) with w by lia.
  now apply Z.mod_small.
Qed.

(** X13. The output of [print64] is sixteen decimal fields, each closed by a
    bar, then a newline, and nothing is lost in it: reading the fields back
    gives the sixteen words, each as the signed [long] that ["%ld"] prints,
    that is the word itself modulo 2^64. *)
Theorem print64_can_be_read_back (v : Z -> Z) :
  (forall i, 0 <= i < 16 -> 0 <= v i < 2 ^ 64) ->
  exists zs,
    scan64 (print64 v) = Some zs /\
    zs = map (fun k => long_of_uint64 (v (Z.of_nat k))) (seq 0 16) /\
    map (fun z => z mod 2 ^ 64) zs = map (fun k => v (Z.of_nat k)) (seq 0 16).
Proof.
  intros Hv. eexists. split; [|split; [reflexivity|]].
  - unfold scan64, print64. rewrite fields_print64_loop.
    cbn [fields fst snd]. change (Ascii.eqb newline bar) with false. cbn iota.
    rewrite String.eqb_refl, app_nil_r.
    rewrite <- (map_map (fun k => long_of_uint64 (v (0 + Z.of_nat k))) printf_ld).
    apply scan_all_printf_ld.
  - rewrite map_map. apply map_ext_in. intros k Hk. apply in_seq in Hk.
    cbn [Z.add]. apply long_of_uint64_mod. apply Hv. lia.
Qed.

Lemma print64_can_be_read_back_witness :
  exists zs,
    scan64 (print64 (fun i => 2 ^ 64 - 1 - i)) = Some zs /\
    zs = map (fun k => long_of_uint64 (2 ^ 64 - 1 - Z.of_nat k)) (seq 0 16) /\
    map (fun z => z mod 2 ^ 64) zs = map (fun k => 2 ^ 64 - 1 - Z.of_nat k) (seq 0 16).
Proof.
  apply (print64_can_be_read_back (fun i => 2 ^ 64 - 1 - i)).
  intros i Hi. lia.
Defined.
